(** * Kruskal-style spanning tree selection (Traversal.cpp)

    A shallow embedding of the three classes of [Traversal.cpp] ([Edge],
    [PathFinder], [SpanningTree]) and of the driver loop of [main], followed
    by the properties of the selection engine.

    Conventions of the embedding:
    - a C++ [int] is a [Z]; the running cost of [SpanningTree], the one sum
      the input can drive past [INT_MAX], wraps into the 32-bit range as the
      compiled program does ([int_wrap]); [index++] and the edge counter
      count stored edges and stay far below that bound;
    - a [std::vector] is a [list], indexed from 0;
    - a [std::set] is a strictly ascending duplicate-free [list], so that a
      range-for over it visits the elements in the order of [operator<] and
      also visits the elements that the loop body inserts above the cursor;
    - diagnostics written to [cout] are not part of the state, except for the
      one report of [insert_new_edge];
    - a call whose behaviour C++ leaves undefined yields [Undefined]. *)

From stdpp Require Import base list list_numbers sorting relations gmap.
From Stdlib Require Import ZArith Lia.

Local Open Scope Z_scope.

(** ** Outcomes of calls *)

Inductive fault : Type :=
  | FlowsOffEnd   (* control reaches the closing brace of a non-void function *)
  | OutOfRange.   (* [vector::operator[]] or a dereference outside the storage *)

Inductive outcome (A : Type) : Type :=
  | Returns (a : A)
  | Undefined (why : fault)
  | OutOfFuel.
Arguments Returns {A} a.
Arguments Undefined {A} why.
Arguments OutOfFuel {A}.

(** ** int *)

Definition INT_MIN : Z := -2147483648.
Definition INT_MAX : Z := 2147483647.

(** The value a 32-bit two's complement [int] holds after an addition whose
    exact result is [z]: [z] itself in [INT_MIN .. INT_MAX], and [z] reduced
    modulo 2^32 into that range otherwise. *)
Definition int_wrap (z : Z) : Z := (z + 2147483648) mod 4294967296 - 2147483648.

(** ** class Edge *)

Record Edge : Type := mkEdge { source : Z; destination : Z; weight : Z }.

#[global] Instance Edge_eq_dec : EqDecision Edge.
Proof. solve_decision. Defined.

(** [Edge(const int s=-1, const int d=-1, const int w=-1)] with no argument. *)
Definition Edge_default : Edge := mkEdge (-1) (-1) (-1).

(** [bool Edge::operator==(const Edge e)] *)
Definition Edge_eqb (this e : Edge) : bool :=
  (source this =? source e) && (destination this =? destination e)
  && (weight this =? weight e).

(** ** std::pair<int,int>: [operator<] and [operator==] *)

Definition pair_ltb (x y : Z * Z) : bool :=
  (x.1 <? y.1) || (negb (y.1 <? x.1) && (x.2 <? y.2)).

Definition pair_eqb (x y : Z * Z) : bool :=
  (x.1 =? y.1) && (x.2 =? y.2).

(** ** std::set<T> as an ascending list *)

Section ordered_set.
Context {A : Type} (ltb : A → A → bool).

(** [set::insert]: the element is placed at its rank, and dropped when an
    equivalent one (neither smaller nor greater) is present. *)
Fixpoint set_insert (x : A) (l : list A) : list A :=
  match l with
  | [] => [x]
  | y :: l' =>
      if ltb x y then x :: l
      else if ltb y x then y :: set_insert x l'
      else l
  end.

(** [++it] on an iterator that stands on [x]: the first element after [x]. *)
Definition set_next (x : A) (l : list A) : option A :=
  List.find (ltb x) l.
End ordered_set.

(** ** std::vector helpers *)

(** [v[i]] for an [int] index: reading outside the storage is undefined. *)
Definition vector_at {A} (v : list A) (i : Z) : option A :=
  if i <? 0 then None else v !! Z.to_nat i.

(** [std::sort] on [vector<pair<int,int>>] with the default [operator<].
    The comparison is a strict total order on pairs, hence the ascending
    arrangement is unique (see [sort_pairs_unique]) and every conforming
    sorting routine returns the list computed here. *)
Fixpoint sorted_insert (x : Z * Z) (l : list (Z * Z)) : list (Z * Z) :=
  match l with
  | [] => [x]
  | y :: l' => if pair_ltb y x then y :: sorted_insert x l' else x :: l
  end.

Definition sort_pairs (l : list (Z * Z)) : list (Z * Z) :=
  foldr sorted_insert [] l.

(** [std::remove(first, last, value)] as the standard libraries implement it,
    called with [value] bound to the element [v[i]] of the very range that is
    being compacted: every comparison reads the current content of [v[i]].
    [remove_shift] is the compaction loop, [result] the write cursor and
    [first] the read cursor; the pair returned is the vector after the loop
    and the iterator [remove] returns. *)
Fixpoint remove_shift (steps : nat) (i result first : nat) (v : list (Z * Z))
  : list (Z * Z) * nat :=
  match steps with
  | O => (v, result)
  | S steps' =>
      match v !! first, v !! i with
      | Some x, Some value =>
          if pair_eqb x value
          then remove_shift steps' i result (S first) v
          else remove_shift steps' i (S result) (S first) (<[result := x]> v)
      | _, _ => (v, result)
      end
  end.

Definition std_remove (i : nat) (v : list (Z * Z)) : list (Z * Z) * nat :=
  match v !! i with
  | None => (v, length v)
  | Some value =>
      match list_find (λ x, pair_eqb x value = true) v with
      | None => (v, length v)
      | Some (j, _) => remove_shift (length v - S j) i j (S j) v
      end
  end.

(** [v.erase(remove(v.begin(), v.end(), item))] where [item] is [v[i]]:
    the one-iterator [erase] drops the single element at the position that
    [remove] returned. [traverse] calls it with [i] inside the vector. *)
Definition erase_remove (i : nat) (v : list (Z * Z)) : list (Z * Z) :=
  let '(v', r) := std_remove i v in delete r v'.

(** ** class PathFinder *)

Module PathFinder.

Record t : Type := mk {
  all_weights : list (Z * Z);            (* vector<pair<int,int>>: (weight, index) *)
  all_edges : list Edge;                 (* vector<Edge> *)
  traversed_edges : list (Z * Z);        (* set<pair<int,int>> *)
  index : Z;
  num_of_nodes : Z;
  num_of_traversed_edges : Z;
  traversed_nodes : list Z               (* set<int> *)
}.

Definition set_all_weights (pf : t) (w : list (Z * Z)) : t :=
  mk w (all_edges pf) (traversed_edges pf) (index pf) (num_of_nodes pf)
     (num_of_traversed_edges pf) (traversed_nodes pf).

Definition insert_traversed_node (pf : t) (x : Z) : t :=
  mk (all_weights pf) (all_edges pf) (traversed_edges pf) (index pf)
     (num_of_nodes pf) (num_of_traversed_edges pf)
     (set_insert Z.ltb x (traversed_nodes pf)).

Definition insert_traversed_edge (pf : t) (p : Z * Z) : t :=
  mk (all_weights pf) (all_edges pf) (set_insert pair_ltb p (traversed_edges pf))
     (index pf) (num_of_nodes pf) (num_of_traversed_edges pf)
     (traversed_nodes pf).

(** [PathFinder() : index(0), num_of_traversed_edges(0)] followed by the
    first read of [parse_input], which stores the node count (the
    constructor leaves [num_of_nodes] without a value). *)
Definition create (nodes : Z) : t := mk [] [] [] 0 nodes 0 [].

(** The report written by [insert_new_edge] when it refuses an edge. *)
Inductive report : Type := CanNotInsert (s d : Z).

Definition insert_new_edge (pf : t) (s d w : Z) : t * option report :=
  if existsb (λ x, Edge_eqb x (mkEdge d s w)) (all_edges pf)
  then (pf, Some (CanNotInsert s d))
  else (mk (all_weights pf ++ [(w, index pf)])
           (all_edges pf ++ [mkEdge s d w])
           (traversed_edges pf) (index pf + 1) (num_of_nodes pf)
           (num_of_traversed_edges pf) (traversed_nodes pf),
        None).

(** [parse_input] on an input already split into integers: the node count,
    then the triples in file order. *)
Definition parse_input (nodes : Z) (triples : list (Z * Z * Z)) : t :=
  foldl (λ pf '(s, d, w), (insert_new_edge pf s d w).1) (create nodes) triples.

Definition sort_edges (pf : t) : t :=
  set_all_weights pf (sort_pairs (all_weights pf)).

(** The indices read by [print], in printing order: [print] shows
    [all_edges[item.second]] for every item of the weight index. *)
Definition print (pf : t) : list (option Edge) :=
  map (λ item, vector_at (all_edges pf) item.2) (all_weights pf).

Definition is_edge_traversed (pf : t) (source destination : Z) : bool :=
  existsb (λ p, pair_eqb p (source, destination)) (traversed_edges pf).

Definition check_cycle (pf : t) (source destination : Z) : bool :=
  let is_found :=
    foldl (λ is_found idx,
             if is_edge_traversed pf source idx
                && is_edge_traversed pf destination idx
             then true else is_found)
          false (seqZ 0 (num_of_nodes pf)) in
  foldl (λ is_found idx,
           if is_edge_traversed pf idx source
              && is_edge_traversed pf idx destination
           then true else is_found)
        is_found (seqZ 0 (num_of_nodes pf)).

(** One iteration of the range-for of [augment_components], [edge] being
    the element of [traversed_edges] under the cursor. *)
Definition augment_body (source destination : Z) (edge : Z * Z) (pf : t) : t :=
  let pf :=
    if (edge.2 =? source) && negb (edge.1 =? destination) then
      insert_traversed_edge
        (insert_traversed_node (insert_traversed_node pf source) destination)
        (edge.1, destination)
    else pf in
  if (edge.1 =? destination) && negb (edge.2 =? source) then
    insert_traversed_edge
      (insert_traversed_node (insert_traversed_node pf source) destination)
      (source, edge.2)
  else pf.

(** The range-for of [augment_components]. The loop walks the very set it
    inserts into: after the body, the cursor moves to the successor of
    [edge] in the set as it is then. [cur = None] is [it == end()]. *)
Fixpoint augment_loop (fuel : nat) (source destination : Z)
    (cur : option (Z * Z)) (pf : t) : option t :=
  match cur with
  | None => Some pf
  | Some edge =>
      match fuel with
      | O => None
      | S fuel' =>
          let pf' := augment_body source destination edge pf in
          augment_loop fuel' source destination
            (set_next pair_ltb edge (traversed_edges pf')) pf'
      end
  end.

(** [augment_components]. The loop is run with twice the size of the set
    on entry as fuel; [augment_loop_fuel] shows that this is never used up
    and that more fuel changes nothing. *)
Definition augment_components (pf : t) (source destination : Z) : outcome t :=
  match augment_loop (2 * length (traversed_edges pf)) source destination
          (head (traversed_edges pf)) pf with
  | Some pf' => Returns pf'
  | None => OutOfFuel
  end.

(** The value of type [Edge*] that [traverse] returns. *)
Inductive EdgePtr : Type :=
  | nullptr
  | new_Edge (e : Edge)      (* [new Edge(-1,-1,-1)] *)
  | elem_ptr (i : Z).        (* [&this->all_edges[i]] *)

Definition deref (pf : t) (p : EdgePtr) : option Edge :=
  match p with
  | nullptr => None
  | new_Edge e => Some e
  | elem_ptr i => vector_at (all_edges pf) i
  end.

(** The three statements of [traverse] that record an accepted edge: both
    nodes and the pair are marked as traversed and the counter goes up. *)
Definition mark_traversed (pf : t) (source_node destination_node : Z) : t :=
  let pf1 :=
    insert_traversed_node (insert_traversed_node pf source_node)
                          destination_node in
  let pf2 := insert_traversed_edge pf1 (source_node, destination_node) in
  mk (all_weights pf2) (all_edges pf2) (traversed_edges pf2)
     (index pf2) (num_of_nodes pf2)
     (num_of_traversed_edges pf2 + 1) (traversed_nodes pf2).

(** The range-for of [traverse]; [pos] is the position in [all_weights] of
    the head of [items], the items not yet visited. Leaving the loop means
    reaching the end of the function without a [return]. *)
Fixpoint traverse_loop (pf : t) (pos : nat) (items : list (Z * Z))
  : outcome (EdgePtr * t) :=
  match items with
  | [] => Undefined FlowsOffEnd
  | item :: items' =>
      match vector_at (all_edges pf) item.2 with
      | None => Undefined OutOfRange
      | Some e =>
          let source_node := source e in
          let destination_node := destination e in
          if num_of_traversed_edges pf =? num_of_nodes pf - 1 then
            Returns (nullptr, pf)
          else if is_edge_traversed pf source_node destination_node then
            traverse_loop pf (S pos) items'
          else if check_cycle pf source_node destination_node then
            Returns (new_Edge (mkEdge (-1) (-1) (-1)),
                     set_all_weights pf (erase_remove pos (all_weights pf)))
          else
            let pf3 := mark_traversed pf source_node destination_node in
            match augment_components pf3 source_node destination_node with
            | Returns pf4 => Returns (elem_ptr item.2, pf4)
            | Undefined why => Undefined why
            | OutOfFuel => OutOfFuel
            end
      end
  end.

Definition traverse (pf : t) : outcome (EdgePtr * t) :=
  traverse_loop pf 0 (all_weights pf).

(** [get_node_size] *)
Definition get_node_size (pf : t) : Z := num_of_nodes pf.

(** [are_nodes_traversed]: one pass over the recorded pairs with two flags,
    one for a pair that starts at [source], one for a pair that ends at
    [destination]. [traverse] used it before it was replaced there by
    [is_edge_traversed]. *)
Definition are_nodes_traversed (pf : t) (source destination : Z) : bool :=
  let '(is_source_found, is_destination_found) :=
    foldl (λ '(is_source_found, is_destination_found) traversed_node,
             (if traversed_node.1 =? source then true else is_source_found,
              if traversed_node.2 =? destination then true else is_destination_found))
          (false, false) (traversed_edges pf) in
  is_source_found && is_destination_found.

End PathFinder.

(** ** class SpanningTree *)

Module SpanningTree.

Record t : Type := mk { mst_cost : Z; traversed_edges : list Edge }.

(** [SpanningTree() : mst_cost(0)] *)
Definition create : t := mk 0 [].

(** [add_edge(Edge* edge)], applied to the edge the pointer refers to;
    [mst_cost] is an [int] and [+=] is an [int] addition. *)
Definition add_edge (st : t) (edge : Edge) : t :=
  mk (int_wrap (mst_cost st + weight edge)) (traversed_edges st ++ [edge]).

End SpanningTree.

(** ** main *)

(** The test of [main] that recognises the value returned for a rejected
    edge. *)
Definition is_sentinel (e : Edge) : bool :=
  (destination e =? -1) && (source e =? -1) && (weight e =? -1).

(** The [while (new_edge != nullptr)] loop; one unit of fuel per iteration. *)
Fixpoint main_loop (fuel : nat) (pf : PathFinder.t) (mst : SpanningTree.t)
    (new_edge : PathFinder.EdgePtr) : outcome (PathFinder.t * SpanningTree.t) :=
  match new_edge with
  | PathFinder.nullptr => Returns (pf, mst)
  | _ =>
      match fuel with
      | O => OutOfFuel
      | S fuel' =>
          match PathFinder.deref pf new_edge with
          | None => Undefined OutOfRange
          | Some e =>
              let mst' :=
                if negb (is_sentinel e) then SpanningTree.add_edge mst e else mst in
              match PathFinder.traverse pf with
              | Returns (p, pf') => main_loop fuel' pf' mst' p
              | Undefined why => Undefined why
              | OutOfFuel => OutOfFuel
              end
          end
      end
  end.

(** The selection part of [main], from a path finder that is loaded and
    sorted. *)
Definition select_all (fuel : nat) (pf : PathFinder.t)
  : outcome (PathFinder.t * SpanningTree.t) :=
  match PathFinder.traverse pf with
  | Returns (p, pf') => main_loop fuel pf' SpanningTree.create p
  | Undefined why => Undefined why
  | OutOfFuel => OutOfFuel
  end.

(** [main] on the content of the input file. *)
Definition main (fuel : nat) (nodes : Z) (triples : list (Z * Z * Z))
  : outcome (PathFinder.t * SpanningTree.t) :=
  select_all fuel (PathFinder.sort_edges (PathFinder.parse_input nodes triples)).

(** * Vocabulary of the properties *)

(** The lexicographic order that [pair_ltb] decides. *)
Definition pair_lt (x y : Z * Z) : Prop :=
  x.1 < y.1 ∨ (x.1 = y.1 ∧ x.2 < y.2).

(** What a loaded path finder looks like: the counter is the number of
    stored edges and the [i]-th entry of the weight index is the weight of the
    [i]-th edge paired with [i]. *)
Definition loaded (pf : PathFinder.t) : Prop :=
  PathFinder.index pf = Z.of_nat (length (PathFinder.all_edges pf))
  ∧ PathFinder.all_weights pf
    = imap (λ i e, (weight e, Z.of_nat i)) (PathFinder.all_edges pf).

(** The representation every state of a run keeps: the entries of the weight
    index are pairwise distinct in their index component and each one
    designates a stored edge of that weight. *)
Definition index_entry_ok (pf : PathFinder.t) (item : Z * Z) : Prop :=
  ∃ e, vector_at (PathFinder.all_edges pf) item.2 = Some e ∧ weight e = item.1.

Definition weights_ok (pf : PathFinder.t) : Prop :=
  NoDup (PathFinder.all_weights pf).*2
  ∧ Forall (index_entry_ok pf) (PathFinder.all_weights pf).

(** The sum of the weights of a list of edges. *)
Definition total_weight (es : list Edge) : Z := foldr (λ e acc, weight e + acc) 0 es.

(** The accumulator reports the sum of the weights of the edges it holds. *)
Definition cost_is_sum (st : SpanningTree.t) : Prop :=
  SpanningTree.mst_cost st = total_weight (SpanningTree.traversed_edges st).

(** The accumulator reports that sum as an [int] holds it. *)
Definition cost_is_int_sum (st : SpanningTree.t) : Prop :=
  SpanningTree.mst_cost st = int_wrap (total_weight (SpanningTree.traversed_edges st)).

(** A value an [int] holds as it is. *)
Definition in_int_range (z : Z) : Prop := INT_MIN ≤ z ≤ INT_MAX.

(** The order a sorted weight index is ascending in. *)
Definition pair_le (x y : Z * Z) : Prop := pair_lt x y ∨ x = y.

(** The pairs one recorded pair [e] contributes when the edge
    [(source, destination)] is accepted. *)
Definition contrib (source destination : Z) (e : Z * Z) : list (Z * Z) :=
  (if (e.2 =? source) && negb (e.1 =? destination) then [(e.1, destination)] else [])
  ++ (if (e.1 =? destination) && negb (e.2 =? source) then [(source, e.2)] else []).

(** Propagation as a single pass over the pairs known on entry: the pairs are
    read from the snapshot [known] and written to a separate result. *)
Definition propagate_single_pass (source destination : Z) (known : list (Z * Z))
  : list (Z * Z) :=
  foldl (λ T e, foldl (λ T p, set_insert pair_ltb p T) T (contrib source destination e))
        known known.

(** Everything but the two sets is left alone by the augmentation. *)
Definition same_graph (pf pf' : PathFinder.t) : Prop :=
  PathFinder.all_weights pf' = PathFinder.all_weights pf
  ∧ PathFinder.all_edges pf' = PathFinder.all_edges pf
  ∧ PathFinder.index pf' = PathFinder.index pf
  ∧ PathFinder.num_of_nodes pf' = PathFinder.num_of_nodes pf
  ∧ PathFinder.num_of_traversed_edges pf' = PathFinder.num_of_traversed_edges pf.

(** The number of elements of [F] that the cursor, standing on [e], has not
    yet left behind. *)
Definition ahead (e : Z * Z) (F : list (Z * Z)) : nat :=
  length (List.filter (λ x, negb (pair_ltb x e)) F).

(** Every pair the set can hold while the loop runs. *)
Definition single_pass_pairs (s d : Z) (T0 : list (Z * Z)) : list (Z * Z) :=
  T0 ++ (T0 ≫= contrib s d).

(** The entry is passed over by the loop: it designates a stored edge whose
    pair is recorded. *)
Definition skips (pf : PathFinder.t) (item : Z * Z) : bool :=
  match vector_at (PathFinder.all_edges pf) item.2 with
  | Some e => PathFinder.is_edge_traversed pf (source e) (destination e)
  | None => false
  end.

(** The counter test of [traverse] fails: the tree is not complete yet. *)
Definition selection_open (pf : PathFinder.t) : Prop :=
  PathFinder.num_of_traversed_edges pf ≠ PathFinder.num_of_nodes pf - 1.

(** The representation invariant of a path finder during selection. *)
Definition state_ok (pf : PathFinder.t) : Prop :=
  weights_ok pf ∧ StronglySorted pair_lt (PathFinder.traversed_edges pf).

(** The situations a call of [traverse] can find, each with its outcome. *)
Inductive traverse_case (pf : PathFinder.t) : outcome (PathFinder.EdgePtr * PathFinder.t) → Prop :=
  | case_empty :
      PathFinder.all_weights pf = [] →
      traverse_case pf (Undefined FlowsOffEnd)
  | case_exhausted :
      selection_open pf →
      Forall (λ item, skips pf item = true) (PathFinder.all_weights pf) →
      traverse_case pf (Undefined FlowsOffEnd)
  | case_complete :
      ¬ selection_open pf → PathFinder.all_weights pf ≠ [] →
      traverse_case pf (Returns (PathFinder.nullptr, pf))
  | case_rejected pre item post e :
      selection_open pf →
      PathFinder.all_weights pf = pre ++ item :: post →
      Forall (λ item, skips pf item = true) pre →
      vector_at (PathFinder.all_edges pf) item.2 = Some e →
      PathFinder.is_edge_traversed pf (source e) (destination e) = false →
      PathFinder.check_cycle pf (source e) (destination e) = true →
      traverse_case pf
        (Returns (PathFinder.new_Edge (mkEdge (-1) (-1) (-1)),
                  PathFinder.set_all_weights pf (pre ++ post)))
  | case_accepted pre item post e pf' :
      selection_open pf →
      PathFinder.all_weights pf = pre ++ item :: post →
      Forall (λ item, skips pf item = true) pre →
      vector_at (PathFinder.all_edges pf) item.2 = Some e →
      PathFinder.is_edge_traversed pf (source e) (destination e) = false →
      PathFinder.check_cycle pf (source e) (destination e) = false →
      PathFinder.augment_components
        (PathFinder.mark_traversed pf (source e) (destination e))
        (source e) (destination e) = Returns pf' →
      traverse_case pf (Returns (PathFinder.elem_ptr item.2, pf')).

(** A call of [traverse] that returns. *)
Definition traverse_step (pf pf' : PathFinder.t) : Prop :=
  ∃ p, PathFinder.traverse pf = Returns (p, pf').

(** Loading leaves the selection state as the constructor made it. *)
Definition fresh (nodes : Z) (pf : PathFinder.t) : Prop :=
  PathFinder.traversed_edges pf = [] ∧ PathFinder.traversed_nodes pf = []
  ∧ PathFinder.num_of_traversed_edges pf = 0 ∧ PathFinder.num_of_nodes pf = nodes.

(** The pairs of end points of a list of edges. *)
Definition edge_pairs (es : list Edge) : list (Z * Z) :=
  (λ e, (source e, destination e)) <$> es.

(** Two nodes are joined by a list of pairs when a path of pairs, each taken
    in either direction, leads from one to the other. *)
Definition joined (pairs : list (Z * Z)) : relation Z :=
  rtsc (λ u v, (u, v) ∈ pairs).

(** The input graph is connected: every node of [0, num_of_nodes) is joined
    to every other by the loaded edges. *)
Definition connected_graph (pf : PathFinder.t) : Prop :=
  ∀ u v, 0 ≤ u < PathFinder.num_of_nodes pf → 0 ≤ v < PathFinder.num_of_nodes pf →
         joined (edge_pairs (PathFinder.all_edges pf)) u v.

(** A label for the component of a node: the pairs are merged one by one,
    the component of the second end point taking the label of the first. *)
Fixpoint component_label (pairs : list (Z * Z)) (x : Z) : Z :=
  match pairs with
  | [] => x
  | (a, b) :: pairs' =>
      if decide (component_label pairs' x = component_label pairs' b)
      then component_label pairs' a
      else component_label pairs' x
  end.

(** The number of entries of the weight index the loop does not pass over. *)
Definition pending (pf : PathFinder.t) : nat :=
  length (List.filter (λ item, negb (skips pf item)) (PathFinder.all_weights pf)).

(** The invariant of a run over the edges [E] of a graph of [n] nodes;
    [acc] lists the pairs accepted so far. *)
Record run_inv (n : Z) (E : list Edge) (pf : PathFinder.t) (acc : list (Z * Z)) : Prop := {
  inv_ok : state_ok pf;
  inv_edges : PathFinder.all_edges pf = E;
  inv_nodes : PathFinder.num_of_nodes pf = n;
  inv_count : PathFinder.num_of_traversed_edges pf = Z.of_nat (length acc);
  inv_bound : PathFinder.num_of_traversed_edges pf ≤ n - 1;
  inv_pairs : ∀ a b, (a, b) ∈ PathFinder.traversed_edges pf → joined acc a b;
  inv_covered : ∀ (i : nat) e, E !! i = Some e →
      (∃ w, (w, Z.of_nat i) ∈ PathFinder.all_weights pf)
      ∨ joined acc (source e) (destination e);
  inv_nonempty : PathFinder.all_weights pf ≠ [];
  inv_anchor : PathFinder.traversed_edges pf = []
      ∨ ∃ item, item ∈ PathFinder.all_weights pf ∧ skips pf item = true
}.

(** What [main] knows of the pointer it holds and of the fuel it needs. *)
Definition returned_ok (n : Z) (fuel : nat) (pf : PathFinder.t) (p : PathFinder.EdgePtr) : Prop :=
  match p with
  | PathFinder.nullptr => PathFinder.num_of_traversed_edges pf = n - 1
  | PathFinder.new_Edge e => e = mkEdge (-1) (-1) (-1) ∧ (pending pf < fuel)%nat
  | PathFinder.elem_ptr i =>
      is_Some (vector_at (PathFinder.all_edges pf) i) ∧ (pending pf < fuel)%nat
  end.

(** The number of edges the pointer held by [main] still owes to the tree. *)
Definition owed (p : PathFinder.EdgePtr) : nat :=
  match p with PathFinder.elem_ptr _ => 1 | _ => 0 end.

(** A run of [traverse] calls from [pf0], with the pairs of the edges it
    accepted, the last one first. *)
Inductive accepting_run (pf0 : PathFinder.t) : list (Z * Z) → PathFinder.t → Prop :=
  | run_start : accepting_run pf0 [] pf0
  | run_complete acc pf pf' :
      accepting_run pf0 acc pf →
      PathFinder.traverse pf = Returns (PathFinder.nullptr, pf') →
      accepting_run pf0 acc pf'
  | run_reject acc pf e pf' :
      accepting_run pf0 acc pf →
      PathFinder.traverse pf = Returns (PathFinder.new_Edge e, pf') →
      accepting_run pf0 acc pf'
  | run_accept acc pf i e pf' :
      accepting_run pf0 acc pf →
      PathFinder.traverse pf = Returns (PathFinder.elem_ptr i, pf') →
      vector_at (PathFinder.all_edges pf) i = Some e →
      accepting_run pf0 ((source e, destination e) :: acc) pf'.

(** What every state of a run keeps, for any graph: [W0] is the weight index
    and [E] the edge list at the start, [acc] the accepted pairs. *)
Record sel_inv (W0 : list (Z * Z)) (E : list Edge) (pf : PathFinder.t)
    (acc : list (Z * Z)) : Prop := {
  sel_ok : state_ok pf;
  sel_edges : PathFinder.all_edges pf = E;
  sel_index : PathFinder.all_weights pf `sublist_of` W0;
  sel_count : PathFinder.num_of_traversed_edges pf = Z.of_nat (length acc);
  sel_pairs : ∀ a b, (a, b) ∈ PathFinder.traversed_edges pf → joined acc a b;
  sel_recorded : ∀ p, p ∈ acc → p ∈ PathFinder.traversed_edges pf;
  sel_nodup : NoDup acc;
  sel_stored : ∀ p, p ∈ acc → p ∈ edge_pairs E;
  sel_dropped : ∀ item, item ∈ W0 → item ∉ PathFinder.all_weights pf →
      ∃ e, vector_at E item.2 = Some e ∧ joined acc (source e) (destination e);
  sel_nodes_sorted : StronglySorted Z.lt (PathFinder.traversed_nodes pf);
  sel_nodes : ∀ x, x ∈ PathFinder.traversed_nodes pf
                   ↔ ∃ p, p ∈ acc ∧ (x = p.1 ∨ x = p.2)
}.

(** The pointer [main] holds, against the accepted pairs [acc]: [handed]
    are the pairs whose edges [main] has already looked at. *)
Definition held (E : list Edge) (acc : list (Z * Z)) (p : PathFinder.EdgePtr)
    (handed : list (Z * Z)) : Prop :=
  match p with
  | PathFinder.nullptr => handed = acc
  | PathFinder.new_Edge e => e = mkEdge (-1) (-1) (-1) ∧ handed = acc
  | PathFinder.elem_ptr i =>
      ∃ e, vector_at E i = Some e ∧ acc = (source e, destination e) :: handed
  end.

(** The tree [main] has built, against the pairs handed to it. *)
Definition tree_ok (E : list Edge) (mst : SpanningTree.t) (handed : list (Z * Z)) : Prop :=
  Forall (λ e, e ∈ E ∧ is_sentinel e = false) (SpanningTree.traversed_edges mst)
  ∧ edge_pairs (SpanningTree.traversed_edges mst) `sublist_of` reverse handed
  ∧ (Forall (λ e, is_sentinel e = false) E →
     edge_pairs (SpanningTree.traversed_edges mst) = reverse handed).

(** * Properties *)

(** ** Pairs: the order and the equality of [std::pair<int,int>] *)

Lemma pair_ltb_spec x y : reflect (pair_lt x y) (pair_ltb x y).
Proof.
  unfold pair_lt, pair_ltb. apply iff_reflect.
  rewrite orb_true_iff, andb_true_iff, negb_true_iff, !Z.ltb_lt, Z.ltb_ge. lia.
Qed.

Lemma pair_eqb_spec x y : reflect (x = y) (pair_eqb x y).
Proof.
  unfold pair_eqb. apply iff_reflect. destruct x as [a b], y as [c d]; simpl.
  rewrite andb_true_iff, !Z.eqb_eq. split; [intros [= -> ->]|intros [-> ->]]; done.
Qed.

Lemma pair_eqb_eq x y : pair_eqb x y = true ↔ x = y.
Proof. destruct (pair_eqb_spec x y); naive_solver. Qed.

Lemma pair_ltb_lt x y : pair_ltb x y = true ↔ pair_lt x y.
Proof. destruct (pair_ltb_spec x y); naive_solver. Qed.

Lemma pair_lt_irrefl x : ¬ pair_lt x x.
Proof. unfold pair_lt. lia. Qed.

Lemma pair_lt_trans x y z : pair_lt x y → pair_lt y z → pair_lt x z.
Proof. unfold pair_lt. lia. Qed.

Lemma pair_lt_trichotomy x y : pair_lt x y ∨ x = y ∨ pair_lt y x.
Proof.
  destruct x as [a b], y as [c d]. unfold pair_lt; simpl.
  destruct (Z.lt_total a c) as [?|[->|?]]; [lia| |lia].
  destruct (Z.lt_total b d) as [?|[->|?]]; [lia|by right; left|lia].
Qed.

Lemma pair_lt_asym x y : pair_lt x y → ¬ pair_lt y x.
Proof. unfold pair_lt. lia. Qed.

#[local] Instance pair_lt_transitive : Transitive pair_lt.
Proof. intros x y z. apply pair_lt_trans. Qed.

Lemma Edge_eqb_eq a e : Edge_eqb a e = true ↔ a = e.
Proof.
  destruct a, e. unfold Edge_eqb; simpl.
  rewrite !andb_true_iff, !Z.eqb_eq. split; [intros [[-> ->] ->]|intros [= -> -> ->]]; done.
Qed.

Lemma existsb_elem_of {A} (f : A → bool) l :
  existsb f l = true ↔ ∃ x, x ∈ l ∧ f x = true.
Proof.
  rewrite existsb_exists. split; intros (x & H1 & H2); exists x; split; try done;
    by apply list_elem_of_In.
Qed.

(** The flag idiom of the two loops of [check_cycle]. *)
Lemma foldl_flag {A} (P : A → bool) (l : list A) (b : bool) :
  foldl (λ is_found x, if P x then true else is_found) b l = b || existsb P l.
Proof.
  revert b. induction l as [|x l IH]; intros b; simpl.
  - by rewrite orb_false_r.
  - rewrite IH. destruct (P x), b; simpl; done.
Qed.

(** ** Cycle check *)

Lemma is_edge_traversed_elem_of pf a b :
  PathFinder.is_edge_traversed pf a b = true ↔ (a, b) ∈ PathFinder.traversed_edges pf.
Proof.
  unfold PathFinder.is_edge_traversed. rewrite existsb_elem_of. split.
  - intros (p & Hp & Heq). apply pair_eqb_eq in Heq. by subst.
  - intros Hin. exists (a, b). split; [done|]. by apply pair_eqb_eq.
Qed.

Lemma check_cycle_true_iff pf s d :
  PathFinder.check_cycle pf s d = true
  ↔ ∃ k, 0 ≤ k < PathFinder.num_of_nodes pf
        ∧ (((s, k) ∈ PathFinder.traversed_edges pf ∧ (d, k) ∈ PathFinder.traversed_edges pf)
           ∨ ((k, s) ∈ PathFinder.traversed_edges pf
              ∧ (k, d) ∈ PathFinder.traversed_edges pf)).
Proof.
  unfold PathFinder.check_cycle. rewrite !foldl_flag. simpl.
  rewrite orb_true_iff, !existsb_elem_of. split.
  - intros [(k & Hk & H)|(k & Hk & H)]; apply elem_of_seqZ in Hk;
      apply andb_true_iff in H as [H1 H2];
      apply is_edge_traversed_elem_of in H1, H2; exists k; (split; [lia|]); tauto.
  - intros (k & Hk & [[H1 H2]|[H1 H2]]); apply is_edge_traversed_elem_of in H1, H2;
      [left|right]; exists k; (split; [apply elem_of_seqZ; lia|]);
      by rewrite H1, H2.
Qed.

(** C4. [check_cycle source destination] answers [true] exactly when some
    node id [k] with [0 <= k < num_of_nodes] has both [(source,k)] and
    [(destination,k)] recorded, or both [(k,source)] and [(k,destination)]
    recorded; a pair is recorded when it is an element of [traversed_edges]
    with this very orientation. *)
Theorem check_cycle_common_neighbour (pf : PathFinder.t) (source destination : Z) :
  (∀ a b, PathFinder.is_edge_traversed pf a b = true
          ↔ (a, b) ∈ PathFinder.traversed_edges pf)
  ∧ (PathFinder.check_cycle pf source destination = true
     ↔ ∃ k, 0 ≤ k < PathFinder.num_of_nodes pf
           ∧ (((source, k) ∈ PathFinder.traversed_edges pf
               ∧ (destination, k) ∈ PathFinder.traversed_edges pf)
              ∨ ((k, source) ∈ PathFinder.traversed_edges pf
                 ∧ (k, destination) ∈ PathFinder.traversed_edges pf))).
Proof.
  split.
  - intros a b. apply is_edge_traversed_elem_of.
  - apply check_cycle_true_iff.
Qed.

(** ** Loading edges *)

Lemma reverse_edge_found pf s d w :
  existsb (λ x, Edge_eqb x (mkEdge d s w)) (PathFinder.all_edges pf) = true
  ↔ mkEdge d s w ∈ PathFinder.all_edges pf.
Proof.
  rewrite existsb_elem_of. split.
  - intros (x & Hx & Heq). apply Edge_eqb_eq in Heq. by subst.
  - intros Hin. exists (mkEdge d s w). split; [done|]. by apply Edge_eqb_eq.
Qed.

Lemma insert_new_edge_rejected pf s d w :
  mkEdge d s w ∈ PathFinder.all_edges pf →
  PathFinder.insert_new_edge pf s d w = (pf, Some (PathFinder.CanNotInsert s d)).
Proof.
  intros Hin. apply reverse_edge_found in Hin.
  unfold PathFinder.insert_new_edge. by rewrite Hin.
Qed.

Lemma insert_new_edge_accepted pf s d w :
  mkEdge d s w ∉ PathFinder.all_edges pf →
  PathFinder.insert_new_edge pf s d w =
    (PathFinder.mk (PathFinder.all_weights pf ++ [(w, PathFinder.index pf)])
       (PathFinder.all_edges pf ++ [mkEdge s d w])
       (PathFinder.traversed_edges pf) (PathFinder.index pf + 1)
       (PathFinder.num_of_nodes pf) (PathFinder.num_of_traversed_edges pf)
       (PathFinder.traversed_nodes pf), None).
Proof.
  intros Hin. unfold PathFinder.insert_new_edge.
  destruct (existsb _ _) eqn:E; [|done].
  apply reverse_edge_found in E. done.
Qed.

Lemma loaded_insert_new_edge pf s d w :
  loaded pf → loaded (PathFinder.insert_new_edge pf s d w).1.
Proof.
  intros [Hidx Hw]. unfold PathFinder.insert_new_edge.
  destruct (existsb _ _); simpl; [done|]. split; simpl.
  - rewrite length_app. simpl. lia.
  - rewrite imap_app. simpl. rewrite <- Hw, Hidx. do 3 f_equal. lia.
Qed.

Lemma loaded_foldl triples pf :
  loaded pf →
  loaded (foldl (λ pf '(s, d, w), (PathFinder.insert_new_edge pf s d w).1) pf triples).
Proof.
  revert pf. induction triples as [|[[s d] w] triples IH]; intros pf Hpf; simpl; [done|].
  apply IH. by apply loaded_insert_new_edge.
Qed.

Lemma loaded_parse_input nodes triples :
  loaded (PathFinder.parse_input nodes triples).
Proof. apply loaded_foldl. by split. Qed.

Lemma vector_at_lookup {A} (v : list A) (i : nat) :
  vector_at v (Z.of_nat i) = v !! i.
Proof.
  unfold vector_at. destruct (Z.ltb_spec (Z.of_nat i) 0); [lia|]. by rewrite Nat2Z.id.
Qed.

Lemma vector_at_Some {A} (v : list A) (i : Z) x :
  vector_at v i = Some x ↔ 0 ≤ i ∧ v !! Z.to_nat i = Some x.
Proof.
  unfold vector_at. destruct (Z.ltb_spec i 0); split.
  - done.
  - intros [??]; lia.
  - intros ?; split; [lia|done].
  - by intros [_ ?].
Qed.

Lemma loaded_lookup pf i item :
  loaded pf → PathFinder.all_weights pf !! i = Some item →
  item.2 = Z.of_nat i
  ∧ ∃ e, PathFinder.all_edges pf !! i = Some e ∧ item.1 = weight e.
Proof.
  intros [_ Hw] Hi. rewrite Hw in Hi. rewrite list_lookup_imap in Hi.
  destruct (PathFinder.all_edges pf !! i) as [e|] eqn:He; simplify_eq/=.
  split; [done|]. by exists e.
Qed.

Lemma loaded_weights_ok pf : loaded pf → weights_ok pf.
Proof.
  intros Hl. split.
  - apply NoDup_alt. intros i j x Hi Hj.
    rewrite list_lookup_fmap in Hi, Hj.
    destruct (PathFinder.all_weights pf !! i) as [a|] eqn:Ha; [|done].
    destruct (PathFinder.all_weights pf !! j) as [b|] eqn:Hb; [|done].
    apply (loaded_lookup _ _ _ Hl) in Ha as [Ha _], Hb as [Hb _].
    simplify_eq/=. lia.
  - apply Forall_lookup. intros i item Hi.
    destruct (loaded_lookup _ _ _ Hl Hi) as [H2 (e & He & H1)].
    exists e. by rewrite H2, vector_at_lookup.
Qed.

Lemma NoDup_fmap_snd_NoDup (l : list (Z * Z)) : NoDup l.*2 → NoDup l.
Proof. apply NoDup_fmap_1. Qed.

(** ** The accumulator *)

Lemma total_weight_snoc es e : total_weight (es ++ [e]) = total_weight es + weight e.
Proof. induction es as [|x es IH]; simpl; [lia|]. rewrite IH. lia. Qed.

(** Wrapping commutes with the additions of a running sum. *)
Lemma int_wrap_add_l a b : int_wrap (int_wrap a + b) = int_wrap (a + b).
Proof.
  unfold int_wrap. f_equal.
  replace ((a + 2147483648) mod 4294967296 - 2147483648 + b + 2147483648)
    with ((a + 2147483648) mod 4294967296 + b) by lia.
  replace (a + b + 2147483648) with (a + 2147483648 + b) by lia.
  apply Zplus_mod_idemp_l.
Qed.

Lemma int_wrap_range z : in_int_range (int_wrap z).
Proof.
  unfold in_int_range, INT_MIN, INT_MAX, int_wrap.
  pose proof (Z.mod_pos_bound (z + 2147483648) 4294967296). lia.
Qed.

(** An [int] holds exactly the values of its range. *)
Lemma int_wrap_fixed z : int_wrap z = z ↔ in_int_range z.
Proof.
  split.
  - intros <-. apply int_wrap_range.
  - unfold in_int_range, INT_MIN, INT_MAX, int_wrap. intros Hz.
    rewrite Z.mod_small; lia.
Qed.

Lemma cost_is_int_sum_add_edge st e :
  cost_is_int_sum st → cost_is_int_sum (SpanningTree.add_edge st e).
Proof.
  unfold cost_is_int_sum. simpl. intros ->.
  by rewrite total_weight_snoc, int_wrap_add_l.
Qed.

Lemma add_edge_foldl es st :
  SpanningTree.traversed_edges (foldl SpanningTree.add_edge st es)
    = SpanningTree.traversed_edges st ++ es.
Proof.
  revert st. induction es as [|e es IH]; intros st; simpl.
  - by rewrite app_nil_r.
  - rewrite IH. simpl. by rewrite <- app_assoc.
Qed.

Lemma cost_is_int_sum_foldl es st :
  cost_is_int_sum st → cost_is_int_sum (foldl SpanningTree.add_edge st es).
Proof.
  revert st. induction es as [|e es IH]; intros st Hst; simpl; [done|].
  by apply IH, cost_is_int_sum_add_edge.
Qed.

Lemma cost_is_int_sum_main_loop fuel pf mst p :
  cost_is_int_sum mst →
  match main_loop fuel pf mst p with
  | Returns (_, mst') => cost_is_int_sum mst'
  | _ => True
  end.
Proof.
  revert pf mst p. induction fuel as [|fuel IH]; intros pf mst p Hmst; simpl.
  - by destruct p.
  - destruct p as [|e|i]; [done| |].
    + simpl. destruct (PathFinder.traverse pf) as [[p' pf']| |]; [|done..].
      apply IH. destruct (negb _); [by apply cost_is_int_sum_add_edge|done].
    + simpl. destruct (vector_at _ _) as [e|]; [|done].
      destruct (PathFinder.traverse pf) as [[p' pf']| |]; [|done..].
      apply IH. destruct (negb _); [by apply cost_is_int_sum_add_edge|done].
Qed.

(** ** The ordered set of pairs *)

Lemma elem_of_set_insert x y (l : list (Z * Z)) :
  y ∈ set_insert pair_ltb x l ↔ y = x ∨ y ∈ l.
Proof.
  induction l as [|a l IH]; simpl.
  - rewrite list_elem_of_singleton, elem_of_nil. tauto.
  - destruct (pair_ltb_spec x a) as [Hxa|Hxa]; [by rewrite elem_of_cons|].
    destruct (pair_ltb_spec a x) as [Hax|Hax].
    + rewrite !elem_of_cons, IH. tauto.
    + destruct (pair_lt_trichotomy x a) as [?|[ ->|?]]; [done| |done].
      rewrite elem_of_cons. tauto.
Qed.

Lemma set_insert_sorted x (l : list (Z * Z)) :
  StronglySorted pair_lt l → StronglySorted pair_lt (set_insert pair_ltb x l).
Proof.
  induction 1 as [|a l Hl IH Ha]; simpl.
  - repeat constructor.
  - destruct (pair_ltb_spec x a) as [Hxa|Hxa].
    + constructor; [by constructor|]. constructor; [done|].
      eapply Forall_impl; [exact Ha|]. intros z Hz. by etrans.
    + destruct (pair_ltb_spec a x) as [Hax|Hax]; [|by constructor].
      constructor; [done|]. apply Forall_forall. intros z Hz.
      apply elem_of_set_insert in Hz as [->|Hz]; [done|].
      rewrite Forall_forall in Ha. by apply Ha.
Qed.

Lemma set_insert_present x (l : list (Z * Z)) :
  StronglySorted pair_lt l → x ∈ l → set_insert pair_ltb x l = l.
Proof.
  induction 1 as [|a l Hl IH Ha]; intros Hx; simpl; [by apply not_elem_of_nil in Hx|].
  rewrite Forall_forall in Ha.
  destruct (pair_ltb_spec x a) as [Hxa|Hxa].
  - apply elem_of_cons in Hx as [->|Hx]; [by apply pair_lt_irrefl in Hxa|].
    by apply Ha, pair_lt_asym in Hx.
  - destruct (pair_ltb_spec a x) as [Hax|Hax]; [|done].
    apply elem_of_cons in Hx as [->|Hx]; [by apply pair_lt_irrefl in Hax|].
    by rewrite IH.
Qed.

Lemma set_next_Some e e' (l : list (Z * Z)) :
  set_next pair_ltb e l = Some e' → e' ∈ l ∧ pair_lt e e'.
Proof.
  unfold set_next. intros H. apply find_some in H as [Hin Hlt].
  split; [by apply list_elem_of_In|by apply pair_ltb_lt].
Qed.

Lemma set_next_least e e' (l : list (Z * Z)) :
  StronglySorted pair_lt l → set_next pair_ltb e l = Some e' →
  ∀ x, x ∈ l → pair_lt e x → x = e' ∨ pair_lt e' x.
Proof.
  unfold set_next. induction 1 as [|a l Hl IH Ha]; simpl; [done|].
  rewrite Forall_forall in Ha.
  destruct (pair_ltb_spec e a) as [Hea|Hea].
  - intros [= <-] x Hx _. apply elem_of_cons in Hx as [->|Hx]; [by left|right; auto].
  - intros Hf x Hx Hex. apply elem_of_cons in Hx as [->|Hx]; [done|]. by apply IH.
Qed.

Lemma set_next_None e (l : list (Z * Z)) :
  set_next pair_ltb e l = None → ∀ x, x ∈ l → ¬ pair_lt e x.
Proof.
  unfold set_next. intros H x Hx Hlt.
  apply list_elem_of_In in Hx. apply (find_none _ _ H) in Hx.
  apply pair_ltb_lt in Hlt. congruence.
Qed.

Lemma sorted_head_least m (l : list (Z * Z)) :
  StronglySorted pair_lt l → head l = Some m → ∀ x, x ∈ l → x = m ∨ pair_lt m x.
Proof.
  intros Hl Hm x Hx. destruct l as [|a l]; simplify_eq/=.
  apply StronglySorted_cons in Hl as [Ha _]. rewrite Forall_forall in Ha.
  apply elem_of_cons in Hx as [->|Hx]; [by left|right; auto].
Qed.

(** ** Sorting the weight index *)

#[local] Instance pair_le_antisymm : AntiSymm (=) pair_le.
Proof.
  intros x y [Hxy| ->] [Hyx|Heq]; try done. by apply pair_lt_asym in Hxy.
Qed.

Lemma pair_le_trans x y z : pair_le x y → pair_le y z → pair_le x z.
Proof.
  intros [Hxy| ->] [Hyz| ->]; unfold pair_le; eauto using pair_lt_trans.
Qed.

Lemma sorted_insert_perm x l : sorted_insert x l ≡ₚ x :: l.
Proof.
  induction l as [|y l IH]; simpl; [done|].
  destruct (pair_ltb y x); [|done]. rewrite IH. apply perm_swap.
Qed.

Lemma sort_pairs_perm l : sort_pairs l ≡ₚ l.
Proof.
  induction l as [|x l IH]; simpl; [done|].
  rewrite sorted_insert_perm. by f_equiv.
Qed.

Lemma sorted_insert_sorted x l :
  StronglySorted pair_le l → StronglySorted pair_le (sorted_insert x l).
Proof.
  induction 1 as [|y l Hl IH Hy]; simpl; [repeat constructor|].
  destruct (pair_ltb_spec y x) as [Hyx|Hyx].
  - constructor; [done|]. rewrite sorted_insert_perm. constructor; [by left|done].
  - assert (pair_le x y) as Hxy.
    { destruct (pair_lt_trichotomy x y) as [?|[ ->|?]]; [by left|by right|done]. }
    constructor; [by constructor|]. constructor; [done|].
    eapply Forall_impl; [exact Hy|]. intros z Hz. by eapply pair_le_trans.
Qed.

Lemma sort_pairs_sorted l : StronglySorted pair_le (sort_pairs l).
Proof.
  induction l as [|x l IH]; simpl; [constructor|]. by apply sorted_insert_sorted.
Qed.

(** Whatever routine sorts the index, the outcome is the list of
    [sort_pairs]. *)
Lemma sort_pairs_unique l l' :
  l' ≡ₚ l → StronglySorted pair_le l' → l' = sort_pairs l.
Proof.
  intros Hp Hs. apply (StronglySorted_unique pair_le); [done|apply sort_pairs_sorted|].
  by rewrite sort_pairs_perm.
Qed.

Lemma weights_ok_sort_edges pf : weights_ok pf → weights_ok (PathFinder.sort_edges pf).
Proof.
  intros [Hnd Hall]. split; simpl.
  - by rewrite sort_pairs_perm.
  - rewrite sort_pairs_perm. done.
Qed.

(** ** [erase(remove(..., item))] on a vector without duplicates *)

Section erase_remove.
Local Open Scope nat_scope.
Context (v : list (Z * Z)) (i : nat).
Hypothesis v_nodup : NoDup v.
Hypothesis i_lt : i < length v.

(** The compaction loop, started behind [v[i]]: at every step the slot
    [v[i]] holds a value different from the one read, so each element
    moves one slot down and [remove] returns the last slot. *)
Lemma remove_shift_nodup steps r w :
  i ≤ r → steps + S r = length v → length w = length v →
  (∀ k, k < i → w !! k = v !! k) →
  (∀ k, i ≤ k < r → w !! k = v !! S k) →
  (∀ k, r ≤ k → w !! k = v !! k) →
  ∃ w', remove_shift steps i r (S r) w = (w', length v - 1)
        ∧ length w' = length v
        ∧ (∀ k, k < i → w' !! k = v !! k)
        ∧ (∀ k, i ≤ k < length v - 1 → w' !! k = v !! S k).
Proof.
  revert r w. induction steps as [|steps IH]; intros r w Hr Hsteps Hlen Hlo Hmid Hhi; simpl.
  - exists w. replace (length v - 1) with r by lia.
    split_and!; [done..|]. intros k Hk. apply Hmid. lia.
  - destruct (lookup_lt_is_Some_2 v (S r)) as [x Hx]; [lia|].
    rewrite (Hhi (S r)), Hx by lia.
    assert (∃ j, j ≠ S r ∧ w !! i = v !! j ∧ j < length v) as (j & Hj & Hwi & Hjlt).
    { destruct (decide (i = r)) as [->|Hne].
      - exists r. rewrite Hhi by lia. split_and!; [lia|done|lia].
      - exists (S i). rewrite Hmid by lia. split_and!; [lia|done|lia]. }
    destruct (lookup_lt_is_Some_2 v j) as [y Hy]; [done|].
    rewrite Hwi, Hy.
    destruct (pair_eqb_spec x y) as [->|Hxy].
    { exfalso. apply Hj. by eapply NoDup_lookup. }
    apply IH.
    + lia.
    + lia.
    + by rewrite length_insert.
    + intros k Hk. rewrite list_lookup_insert_ne by lia. by apply Hlo.
    + intros k Hk. destruct (decide (k = r)) as [->|Hne].
      * rewrite list_lookup_insert_eq by lia. done.
      * rewrite list_lookup_insert_ne by lia. apply Hmid. lia.
    + intros k Hk. rewrite list_lookup_insert_ne by lia. apply Hhi. lia.
Qed.

Lemma erase_remove_nodup : erase_remove i v = delete i v.
Proof.
  destruct (lookup_lt_is_Some_2 v i) as [value Hvalue]; [done|].
  assert (list_find (λ x, pair_eqb x value = true) v = Some (i, value)) as Hfind.
  { apply list_find_Some. split_and!; [done|by apply pair_eqb_eq|].
    intros j y Hy Hlt Heq. apply pair_eqb_eq in Heq as ->.
    assert (j = i) by by eapply NoDup_lookup. lia. }
  unfold erase_remove, std_remove. rewrite Hvalue, Hfind.
  destruct (remove_shift_nodup (length v - S i) i v) as (w' & -> & Hlen & Hlo & Hmid);
    [lia|lia|done|done|intros; lia|done|].
  apply list_eq. intros k.
  destruct (decide (k < length v - 1)) as [Hk|Hk].
  - rewrite list_lookup_delete_lt by lia.
    destruct (decide (k < i)).
    + rewrite list_lookup_delete_lt by lia. by apply Hlo.
    + rewrite list_lookup_delete_ge by lia. apply Hmid. lia.
  - rewrite !lookup_ge_None_2; [done|rewrite length_delete; [lia|]..].
    + apply lookup_lt_is_Some. lia.
    + apply lookup_lt_is_Some. lia.
Qed.
End erase_remove.

(** ** Augmenting the recorded pairs *)

Lemma elem_of_contrib s d e p :
  p ∈ contrib s d e
  ↔ (e.2 = s ∧ e.1 ≠ d ∧ p = (e.1, d)) ∨ (e.1 = d ∧ e.2 ≠ s ∧ p = (s, e.2)).
Proof.
  unfold contrib.
  destruct (Z.eqb_spec e.2 s), (Z.eqb_spec e.1 d); simpl;
    rewrite ?list_elem_of_singleton, ?elem_of_nil; intuition congruence.
Qed.

Lemma contrib_length s d e : (length (contrib s d e) ≤ 1)%nat.
Proof.
  unfold contrib. destruct (Z.eqb_spec e.2 s), (Z.eqb_spec e.1 d); simpl; lia.
Qed.

(** A contributed pair contributes nothing but itself. *)
Lemma contrib_inert s d e p q : p ∈ contrib s d e → q ∈ contrib s d p → q = p.
Proof.
  rewrite !elem_of_contrib. destruct e as [a b], p as [x y]; simpl.
  intros [(-> & Hne & [= -> ->])|(-> & Hne & [= -> ->])]
         [(? & ? & ->)|(? & ? & ->)]; simpl in *; congruence.
Qed.

Lemma elem_of_foldl_set_insert (l T : list (Z * Z)) p :
  p ∈ foldl (λ T p, set_insert pair_ltb p T) T l ↔ p ∈ T ∨ p ∈ l.
Proof.
  revert T. induction l as [|x l IH]; intros T; simpl.
  - rewrite elem_of_nil. tauto.
  - rewrite IH, elem_of_set_insert, elem_of_cons. tauto.
Qed.

Lemma foldl_set_insert_sorted (l T : list (Z * Z)) :
  StronglySorted pair_lt T →
  StronglySorted pair_lt (foldl (λ T p, set_insert pair_ltb p T) T l).
Proof.
  revert T. induction l as [|x l IH]; intros T HT; simpl; [done|].
  by apply IH, set_insert_sorted.
Qed.

Lemma augment_body_traversed_edges s d e pf :
  PathFinder.traversed_edges (PathFinder.augment_body s d e pf)
  = foldl (λ T p, set_insert pair_ltb p T) (PathFinder.traversed_edges pf) (contrib s d e).
Proof.
  unfold PathFinder.augment_body, contrib.
  destruct ((e.2 =? s) && negb (e.1 =? d)), ((e.1 =? d) && negb (e.2 =? s)); done.
Qed.

Lemma same_graph_refl pf : same_graph pf pf.
Proof. by repeat split. Qed.

Lemma same_graph_trans pf1 pf2 pf3 :
  same_graph pf1 pf2 → same_graph pf2 pf3 → same_graph pf1 pf3.
Proof.
  unfold same_graph. intros (?&?&?&?&?) (?&?&?&?&?). split_and!; congruence.
Qed.

Lemma augment_body_same_graph s d e pf :
  same_graph pf (PathFinder.augment_body s d e pf).
Proof.
  unfold PathFinder.augment_body.
  destruct ((e.2 =? s) && negb (e.1 =? d)), ((e.1 =? d) && negb (e.2 =? s));
    by repeat split.
Qed.

Lemma augment_loop_same_graph fuel s d cur pf pf' :
  PathFinder.augment_loop fuel s d cur pf = Some pf' → same_graph pf pf'.
Proof.
  revert cur pf. induction fuel as [|fuel IH]; intros [e|] pf; simpl; try done.
  - intros [= ->]. apply same_graph_refl.
  - intros H. eapply same_graph_trans; [apply augment_body_same_graph|]. by eapply IH.
  - intros [= ->]. apply same_graph_refl.
Qed.

Lemma augment_loop_more_fuel fuel extra s d cur pf pf' :
  PathFinder.augment_loop fuel s d cur pf = Some pf' →
  PathFinder.augment_loop (fuel + extra) s d cur pf = Some pf'.
Proof.
  revert cur pf. induction fuel as [|fuel IH]; intros [e|] pf; simpl; try done.
  - intros [= ->]. by destruct extra.
  - apply IH.
Qed.

Lemma ahead_le e F : (ahead e F ≤ length F)%nat.
Proof.
  unfold ahead. induction F as [|x F IH]; simpl; [lia|].
  destruct (negb _); simpl; lia.
Qed.

Lemma ahead_mono e e' F : pair_lt e e' → (ahead e' F ≤ ahead e F)%nat.
Proof.
  intros Hlt. unfold ahead. induction F as [|x F IH]; simpl; [lia|].
  destruct (pair_ltb_spec x e') as [H1|H1], (pair_ltb_spec x e) as [H2|H2]; simpl; try lia.
  exfalso. apply H1. by etrans.
Qed.

Lemma ahead_step e e' F : pair_lt e e' → e ∈ F → (ahead e' F < ahead e F)%nat.
Proof.
  intros Hlt. induction F as [|x F IH]; intros Hin; [by apply elem_of_nil in Hin|].
  pose proof (ahead_mono e e' F Hlt) as Hmono. unfold ahead in *. simpl.
  apply elem_of_cons in Hin as [<-|Hin].
  - destruct (pair_ltb_spec e e') as [_|?]; [|done].
    destruct (pair_ltb_spec e e) as [H|_]; [by apply pair_lt_irrefl in H|]. simpl. lia.
  - specialize (IH Hin).
    destruct (pair_ltb_spec x e') as [H1|H1], (pair_ltb_spec x e) as [H2|H2]; simpl; try lia.
    exfalso. apply H1. by etrans.
Qed.

Lemma ahead_pos e F : e ∈ F → (0 < ahead e F)%nat.
Proof.
  induction F as [|x F IH]; intros Hin; [by apply elem_of_nil in Hin|].
  unfold ahead in *. simpl. apply elem_of_cons in Hin as [<-|Hin].
  - destruct (pair_ltb_spec e e) as [H|_]; [by apply pair_lt_irrefl in H|]. simpl. lia.
  - specialize (IH Hin). destruct (negb _); simpl; lia.
Qed.

Lemma sorted_pairs_NoDup (l : list (Z * Z)) : StronglySorted pair_lt l → NoDup l.
Proof.
  induction 1 as [|a l Hl IH Ha]; constructor; [|done].
  intros Hin. rewrite Forall_forall in Ha. by apply Ha, pair_lt_irrefl in Hin.
Qed.

(** Two ascending lists with the same elements are the same list. *)
Lemma sorted_pairs_ext (l k : list (Z * Z)) :
  StronglySorted pair_lt l → StronglySorted pair_lt k → (∀ p, p ∈ l ↔ p ∈ k) → l = k.
Proof.
  intros Hl Hk Heq. apply (StronglySorted_unique_strong pair_lt); [|done..|].
  - intros x y _ _ Hxy Hyx. by apply pair_lt_asym in Hxy.
  - apply NoDup_Permutation; auto using sorted_pairs_NoDup.
Qed.

Section augment.
Context (s d : Z) (T0 : list (Z * Z)).
Local Abbreviation pairs_of_pass := (single_pass_pairs s d T0).

Lemma elem_of_single_pass_pairs p :
  p ∈ pairs_of_pass ↔ p ∈ T0 ∨ ∃ e, e ∈ T0 ∧ p ∈ contrib s d e.
Proof.
  unfold pairs_of_pass. rewrite elem_of_app, list_elem_of_bind.
  split; (intros [?|(e & ? & ?)]; [by left|right; by exists e]).
Qed.

Lemma single_pass_pairs_length : (length pairs_of_pass ≤ 2 * length T0)%nat.
Proof.
  unfold pairs_of_pass. rewrite length_app.
  assert (length (T0 ≫= contrib s d) ≤ length T0)%nat; [|lia].
  induction T0 as [|e l IH]; [simpl; lia|].
  rewrite bind_cons, length_app. pose proof (contrib_length s d e). simpl. lia.
Qed.

Lemma contrib_closed e p :
  e ∈ pairs_of_pass → p ∈ contrib s d e → p ∈ pairs_of_pass.
Proof.
  intros He Hp. apply elem_of_single_pass_pairs in He as [He|(x & Hx & He)].
  - apply elem_of_single_pass_pairs. right. by exists e.
  - rewrite (contrib_inert _ _ _ _ _ He Hp).
    apply elem_of_single_pass_pairs. right. by exists x.
Qed.

(** The loop, with the cursor on [e]: the set stays between the snapshot
    and [pairs_of_pass], and every snapshot pair below the cursor has
    made its contribution. *)
Lemma augment_loop_invariant fuel e pf :
  StronglySorted pair_lt (PathFinder.traversed_edges pf) →
  (∀ p, p ∈ T0 → p ∈ PathFinder.traversed_edges pf) →
  (∀ p, p ∈ PathFinder.traversed_edges pf → p ∈ pairs_of_pass) →
  e ∈ PathFinder.traversed_edges pf →
  (∀ x p, x ∈ T0 → pair_lt x e → p ∈ contrib s d x →
          p ∈ PathFinder.traversed_edges pf) →
  (ahead e pairs_of_pass ≤ fuel)%nat →
  ∃ pf', PathFinder.augment_loop fuel s d (Some e) pf = Some pf'
         ∧ StronglySorted pair_lt (PathFinder.traversed_edges pf')
         ∧ ∀ p, p ∈ PathFinder.traversed_edges pf' ↔ p ∈ pairs_of_pass.
Proof.
  revert e pf. induction fuel as [|fuel IH]; intros e pf Hsorted Hlow Hup He Hdone Hfuel.
  { pose proof (ahead_pos e pairs_of_pass (Hup _ He)). lia. }
  simpl. set (pf1 := PathFinder.augment_body s d e pf).
  pose proof (augment_body_traversed_edges s d e pf) as HT1. fold pf1 in HT1.
  assert (∀ p, p ∈ PathFinder.traversed_edges pf1
               ↔ p ∈ PathFinder.traversed_edges pf ∨ p ∈ contrib s d e) as Hin1.
  { intros p. rewrite HT1. apply elem_of_foldl_set_insert. }
  assert (StronglySorted pair_lt (PathFinder.traversed_edges pf1)) as Hsorted1.
  { rewrite HT1. by apply foldl_set_insert_sorted. }
  assert (∀ p, p ∈ PathFinder.traversed_edges pf1 → p ∈ pairs_of_pass) as Hup1.
  { intros p [Hp|Hp]%Hin1; [by apply Hup|]. eapply contrib_closed; [|done]. by apply Hup. }
  assert (∀ x p, x ∈ T0 → ¬ pair_lt e x → p ∈ contrib s d x →
                 p ∈ PathFinder.traversed_edges pf1) as Hdone1.
  { intros x p Hx Hex Hp. apply Hin1.
    destruct (pair_lt_trichotomy x e) as [Hlt|[ ->|Hlt]]; [left; eauto|by right|done]. }
  destruct (set_next pair_ltb e (PathFinder.traversed_edges pf1)) as [e'|] eqn:Hnext.
  - apply set_next_Some in Hnext as Hnext'. destruct Hnext' as [He' Hlt].
    apply IH; [done| |done|done| |].
    + intros p Hp. apply Hin1. left. by apply Hlow.
    + intros x p Hx Hxe' Hp. apply (Hdone1 x p Hx); [|done]. intros Hex.
      destruct (set_next_least _ _ _ Hsorted1 Hnext x) as [ ->|Hlt']; [|done| |].
      * apply Hin1. left. by apply Hlow.
      * by apply pair_lt_irrefl in Hxe'.
      * by apply pair_lt_asym in Hlt'.
    + pose proof (ahead_step e e' pairs_of_pass Hlt (Hup _ He)). lia.
  - exists pf1. split; [by destruct fuel|]. split; [done|].
    intros p. split; [apply Hup1|].
    intros [Hp|(x & Hx & Hp)]%elem_of_single_pass_pairs.
    + apply Hin1. left. by apply Hlow.
    + apply (Hdone1 x p Hx); [|done].
      apply (set_next_None _ _ Hnext). apply Hin1. left. by apply Hlow.
Qed.
End augment.

(** [augment_components] returns, and its result holds the snapshot and the
    contributions of the snapshot pairs, nothing else. *)
Lemma augment_components_spec pf s d :
  StronglySorted pair_lt (PathFinder.traversed_edges pf) →
  ∃ pf', PathFinder.augment_components pf s d = Returns pf'
         ∧ same_graph pf pf'
         ∧ StronglySorted pair_lt (PathFinder.traversed_edges pf')
         ∧ ∀ p, p ∈ PathFinder.traversed_edges pf'
                ↔ p ∈ PathFinder.traversed_edges pf
                  ∨ ∃ e, e ∈ PathFinder.traversed_edges pf ∧ p ∈ contrib s d e.
Proof.
  intros Hsorted. unfold PathFinder.augment_components.
  destruct (PathFinder.traversed_edges pf) as [|m T] eqn:HT.
  { exists pf. simpl. split_and!; [done|apply same_graph_refl|by rewrite HT|].
    intros p. rewrite HT, elem_of_nil. split; [done|]. intros [[]|(e & [] %elem_of_nil & _)]. }
  rewrite <- HT in *.
  destruct (augment_loop_invariant s d (PathFinder.traversed_edges pf)
              (2 * length (PathFinder.traversed_edges pf)) m pf)
    as (pf' & Hloop & Hsorted' & Hin'); try done.
  - intros p Hp. apply elem_of_single_pass_pairs. by left.
  - rewrite HT. by left.
  - intros x p Hx Hlt _. exfalso.
    destruct (sorted_head_least m _ Hsorted) with (x := x) as [ ->|Hmx];
      [by rewrite HT|done| |].
    + by apply pair_lt_irrefl in Hlt.
    + by apply pair_lt_asym in Hlt.
  - etrans; [apply ahead_le|apply single_pass_pairs_length].
  - exists pf'.
    replace (head (PathFinder.traversed_edges pf)) with (Some m) by (by rewrite HT).
    rewrite Hloop.
    split_and!; [done|by eapply augment_loop_same_graph|done|].
    intros p. rewrite Hin'. apply elem_of_single_pass_pairs.
Qed.

(** The fuel given to the loop by [augment_components] is not used up, and
    the result does not depend on it. *)
Lemma augment_loop_fuel pf s d extra :
  StronglySorted pair_lt (PathFinder.traversed_edges pf) →
  ∃ pf', PathFinder.augment_components pf s d = Returns pf'
         ∧ PathFinder.augment_loop (2 * length (PathFinder.traversed_edges pf) + extra)
             s d (head (PathFinder.traversed_edges pf)) pf = Some pf'.
Proof.
  intros Hsorted.
  destruct (augment_components_spec pf s d Hsorted) as (pf' & Hret & _).
  exists pf'. split; [done|]. apply augment_loop_more_fuel.
  unfold PathFinder.augment_components in Hret.
  destruct (PathFinder.augment_loop _ _ _ _ _); by simplify_eq.
Qed.

(** ** One call of [traverse] *)

Lemma selection_open_eqb pf :
  selection_open pf →
  (PathFinder.num_of_traversed_edges pf =? PathFinder.num_of_nodes pf - 1) = false.
Proof. intros H. by apply Z.eqb_neq. Qed.

Lemma traverse_loop_skip pf pos pre items :
  selection_open pf → Forall (λ item, skips pf item = true) pre →
  PathFinder.traverse_loop pf pos (pre ++ items)
  = PathFinder.traverse_loop pf (pos + length pre) items.
Proof.
  intros Hopen Hpre. revert pos.
  induction Hpre as [|item pre Hitem _ IH]; intros pos; simpl.
  - by rewrite Nat.add_0_r.
  - unfold skips in Hitem.
    destruct (vector_at _ _) as [e|]; [|done].
    rewrite (selection_open_eqb _ Hopen), Hitem, IH. f_equal. lia.
Qed.

(** The loop either passes over every entry, or stops at the first entry it
    does not pass over. *)
Lemma scan_split pf (items : list (Z * Z)) :
  Forall (λ item, skips pf item = true) items
  ∨ ∃ pre item post, items = pre ++ item :: post
      ∧ Forall (λ item, skips pf item = true) pre ∧ skips pf item = false.
Proof.
  induction items as [|item items IH]; [by left|].
  destruct (skips pf item) eqn:Hitem.
  - destruct IH as [IH|(pre & x & post & -> & Hpre & Hx)].
    + left. by constructor.
    + right. exists (item :: pre), x, post. split_and!; [done|by constructor|done].
  - right. exists [], item, items. split_and!; [done|constructor|done].
Qed.

(** What one call does, by the situation it finds. *)
Lemma traverse_closed pf item rest e :
  PathFinder.all_weights pf = item :: rest →
  vector_at (PathFinder.all_edges pf) item.2 = Some e →
  ¬ selection_open pf →
  PathFinder.traverse pf = Returns (PathFinder.nullptr, pf).
Proof.
  intros Hw He Hclosed. unfold PathFinder.traverse. rewrite Hw. simpl. rewrite He.
  destruct (Z.eqb_spec (PathFinder.num_of_traversed_edges pf)
              (PathFinder.num_of_nodes pf - 1)); done.
Qed.

Lemma traverse_exhausted pf :
  selection_open pf → Forall (λ item, skips pf item = true) (PathFinder.all_weights pf) →
  PathFinder.traverse pf = Undefined FlowsOffEnd.
Proof.
  intros Hopen Hall. unfold PathFinder.traverse.
  rewrite <- (app_nil_r (PathFinder.all_weights pf)).
  by rewrite traverse_loop_skip.
Qed.

Lemma traverse_empty pf :
  PathFinder.all_weights pf = [] → PathFinder.traverse pf = Undefined FlowsOffEnd.
Proof. intros Hw. unfold PathFinder.traverse. by rewrite Hw. Qed.

Lemma traverse_candidate pf pre item post :
  selection_open pf →
  PathFinder.all_weights pf = pre ++ item :: post →
  Forall (λ item, skips pf item = true) pre → skips pf item = false →
  PathFinder.traverse pf =
    match vector_at (PathFinder.all_edges pf) item.2 with
    | None => Undefined OutOfRange
    | Some e =>
        if PathFinder.check_cycle pf (source e) (destination e) then
          Returns (PathFinder.new_Edge (mkEdge (-1) (-1) (-1)),
                   PathFinder.set_all_weights pf
                     (erase_remove (length pre) (PathFinder.all_weights pf)))
        else
          match PathFinder.augment_components
                  (PathFinder.mark_traversed pf (source e) (destination e))
                  (source e) (destination e) with
          | Returns pf4 => Returns (PathFinder.elem_ptr item.2, pf4)
          | Undefined why => Undefined why
          | OutOfFuel => OutOfFuel
          end
    end.
Proof.
  intros Hopen Hw Hpre Hitem. unfold PathFinder.traverse.
  rewrite Hw at 1. rewrite traverse_loop_skip by done. simpl.
  unfold skips in Hitem. destruct (vector_at _ _) as [e|]; [|done].
  by rewrite (selection_open_eqb _ Hopen), Hitem.
Qed.

Lemma mark_traversed_sorted pf s d :
  StronglySorted pair_lt (PathFinder.traversed_edges pf) →
  StronglySorted pair_lt (PathFinder.traversed_edges (PathFinder.mark_traversed pf s d)).
Proof. intros H. simpl. by apply set_insert_sorted. Qed.

Lemma elem_of_mark_traversed pf s d p :
  p ∈ PathFinder.traversed_edges (PathFinder.mark_traversed pf s d)
  ↔ p = (s, d) ∨ p ∈ PathFinder.traversed_edges pf.
Proof. simpl. apply elem_of_set_insert. Qed.

Lemma weights_ok_lookup pf item :
  weights_ok pf → item ∈ PathFinder.all_weights pf →
  ∃ e, vector_at (PathFinder.all_edges pf) item.2 = Some e ∧ weight e = item.1.
Proof. intros [_ Hall] Hin. rewrite Forall_forall in Hall. by apply Hall. Qed.

Lemma traverse_case_of pf : state_ok pf → traverse_case pf (PathFinder.traverse pf).
Proof.
  intros [Hw Hsorted].
  destruct (decide (PathFinder.num_of_traversed_edges pf = PathFinder.num_of_nodes pf - 1))
    as [Hclosed|Hopen].
  - destruct (PathFinder.all_weights pf) as [|item rest] eqn:Hitems.
    + rewrite traverse_empty by done. by constructor.
    + destruct (weights_ok_lookup pf item Hw) as (e & He & _); [rewrite Hitems; by left|].
      rewrite (traverse_closed pf item rest e); [|done|done|by intros []].
      apply case_complete; [by intros []|by rewrite Hitems].
  - destruct (scan_split pf (PathFinder.all_weights pf)) as [Hall|(pre & item & post & Hitems & Hpre & Hitem)].
    + rewrite traverse_exhausted by done. by apply case_exhausted.
    + rewrite (traverse_candidate pf pre item post) by done.
      destruct (weights_ok_lookup pf item Hw) as (e & He & _).
      { rewrite Hitems, elem_of_app, elem_of_cons. auto. }
      rewrite He. unfold skips in Hitem. rewrite He in Hitem.
      destruct (PathFinder.check_cycle pf (source e) (destination e)) eqn:Hcycle.
      * rewrite erase_remove_nodup.
        -- rewrite Hitems at 1. rewrite delete_middle. by eapply case_rejected.
        -- destruct Hw as [Hnd _]. by apply NoDup_fmap_snd_NoDup.
        -- rewrite Hitems, length_app. simpl. lia.
      * destruct (augment_components_spec
                    (PathFinder.mark_traversed pf (source e) (destination e))
                    (source e) (destination e)) as (pf' & Hret & _).
        { by apply mark_traversed_sorted. }
        rewrite Hret. by eapply case_accepted.
Qed.

Lemma skips_elem_of pf item e :
  vector_at (PathFinder.all_edges pf) item.2 = Some e →
  skips pf item = true ↔ (source e, destination e) ∈ PathFinder.traversed_edges pf.
Proof. intros He. unfold skips. rewrite He. apply is_edge_traversed_elem_of. Qed.

Lemma sublist_middle {A} (l1 l2 : list A) x : l1 ++ l2 `sublist_of` l1 ++ x :: l2.
Proof. apply sublist_app; [done|]. by apply sublist_cons. Qed.

Lemma weights_ok_sublist pf w :
  weights_ok pf → w `sublist_of` PathFinder.all_weights pf →
  weights_ok (PathFinder.set_all_weights pf w).
Proof.
  intros [Hnd Hall] Hsub. split; simpl.
  - eapply sublist_NoDup; [done|]. by apply fmap_sublist.
  - apply Forall_forall. intros item Hin. rewrite Forall_forall in Hall.
    by eapply Hall, elem_of_sublist.
Qed.

(** What a returning call preserves. *)
Lemma traverse_preserves pf p pf' :
  state_ok pf → PathFinder.traverse pf = Returns (p, pf') →
  state_ok pf'
  ∧ PathFinder.all_edges pf' = PathFinder.all_edges pf
  ∧ PathFinder.num_of_nodes pf' = PathFinder.num_of_nodes pf
  ∧ PathFinder.all_weights pf' `sublist_of` PathFinder.all_weights pf
  ∧ (∀ q, q ∈ PathFinder.traversed_edges pf → q ∈ PathFinder.traversed_edges pf').
Proof.
  intros Hok Hret. pose proof (traverse_case_of pf Hok) as Hcase.
  rewrite Hret in Hcase. destruct Hok as [Hw Hsorted].
  inversion Hcase as [| | |pre item post e Hopen Hitems Hpre He Ht Hc
                          |pre item post e pf'' Hopen Hitems Hpre He Ht Hc Haug];
    simplify_eq.
  - done.
  - split_and!; try done.
    + split; [|done]. apply weights_ok_sublist; [done|].
      rewrite Hitems. apply sublist_middle.
    + simpl. rewrite Hitems. apply sublist_middle.
  - destruct (augment_components_spec
                (PathFinder.mark_traversed pf (source e) (destination e))
                (source e) (destination e)) as (pf2 & Hret2 & Hsame & Hsorted2 & Hin2).
    { by apply mark_traversed_sorted. }
    rewrite Haug in Hret2. simplify_eq.
    destruct Hsame as (Hsw & Hse & _ & Hsn & _). simpl in *.
    split_and!; [|done|done|by rewrite Hsw|].
    + split; [|done]. destruct Hw as [Hnd Hall]. split; [by rewrite Hsw|].
      rewrite Hsw. eapply Forall_impl; [exact Hall|].
      intros x (e' & He' & Hwe). exists e'. by rewrite Hse.
    + intros q Hq. apply Hin2. left. apply elem_of_set_insert. by right.
Qed.

(** ** States of a run *)

Lemma fresh_insert_new_edge nodes pf s d w :
  fresh nodes pf → fresh nodes (PathFinder.insert_new_edge pf s d w).1.
Proof. unfold PathFinder.insert_new_edge. by destruct (existsb _ _). Qed.

Lemma fresh_foldl nodes triples pf :
  fresh nodes pf →
  fresh nodes (foldl (λ pf '(s, d, w), (PathFinder.insert_new_edge pf s d w).1) pf triples).
Proof.
  revert pf. induction triples as [|[[s d] w] triples IH]; intros pf Hpf; simpl; [done|].
  apply IH. by apply fresh_insert_new_edge.
Qed.

Lemma fresh_parse_input nodes triples : fresh nodes (PathFinder.parse_input nodes triples).
Proof. by apply fresh_foldl. Qed.

Lemma state_ok_start nodes triples :
  state_ok (PathFinder.sort_edges (PathFinder.parse_input nodes triples)).
Proof.
  split.
  - apply weights_ok_sort_edges, loaded_weights_ok, loaded_parse_input.
  - simpl. destruct (fresh_parse_input nodes triples) as [-> _]. constructor.
Qed.

Lemma traverse_steps_preserve pf pf' :
  state_ok pf → rtc traverse_step pf pf' →
  state_ok pf'
  ∧ PathFinder.all_edges pf' = PathFinder.all_edges pf
  ∧ PathFinder.num_of_nodes pf' = PathFinder.num_of_nodes pf
  ∧ PathFinder.all_weights pf' `sublist_of` PathFinder.all_weights pf
  ∧ (∀ q, q ∈ PathFinder.traversed_edges pf → q ∈ PathFinder.traversed_edges pf').
Proof.
  intros Hok Hsteps. induction Hsteps as [pf|pf pf1 pf2 [p Hstep] _ IH]; [done|].
  destruct (traverse_preserves pf p pf1 Hok Hstep) as (Hok1 & He1 & Hn1 & Hw1 & Ht1).
  destruct (IH Hok1) as (Hok2 & He2 & Hn2 & Hw2 & Ht2).
  split_and!; [done|congruence|congruence|by etrans|auto].
Qed.

Lemma print_in_bounds pf : weights_ok pf → Forall is_Some (PathFinder.print pf).
Proof.
  intros [_ Hall]. unfold PathFinder.print. apply Forall_fmap.
  eapply Forall_impl; [exact Hall|]. intros item (e & He & _). simpl. by rewrite He.
Qed.

Lemma traverse_in_bounds pf : state_ok pf → PathFinder.traverse pf ≠ Undefined OutOfRange.
Proof. intros Hok. by destruct (traverse_case_of pf Hok). Qed.

Lemma traverse_not_out_of_fuel pf : state_ok pf → PathFinder.traverse pf ≠ OutOfFuel.
Proof. intros Hok. by destruct (traverse_case_of pf Hok). Qed.

(** C10. After any sequence of [insert_new_edge] calls the edge list and the
    weight index have the same length, the [i]-th entry of the weight index
    is the weight of the [i]-th edge paired with the index [i] (an index
    below the length of the edge list), the indices are pairwise distinct,
    and every read [all_edges[item.second]] made by [print], and by
    [traverse] in any state that sorting and earlier [traverse] calls lead
    to, is inside the edge list. *)
Theorem weight_index_in_bounds (nodes : Z) (triples : list (Z * Z * Z)) :
  let pf := PathFinder.parse_input nodes triples in
  length (PathFinder.all_weights pf) = length (PathFinder.all_edges pf)
  ∧ PathFinder.all_weights pf
    = imap (λ i e, (weight e, Z.of_nat i)) (PathFinder.all_edges pf)
  ∧ (∀ i item, PathFinder.all_weights pf !! i = Some item →
        item.2 = Z.of_nat i
        ∧ 0 ≤ item.2 < Z.of_nat (length (PathFinder.all_edges pf))
        ∧ ∃ e, PathFinder.all_edges pf !! i = Some e ∧ item.1 = weight e)
  ∧ NoDup (PathFinder.all_weights pf).*2
  ∧ Forall is_Some (PathFinder.print pf)
  ∧ (∀ pf', rtc traverse_step (PathFinder.sort_edges pf) pf' →
        Forall is_Some (PathFinder.print pf')
        ∧ PathFinder.traverse pf' ≠ Undefined OutOfRange).
Proof.
  intros pf. pose proof (loaded_parse_input nodes triples) as Hl. fold pf in Hl.
  pose proof (loaded_weights_ok pf Hl) as Hw.
  split_and!.
  - destruct Hl as [_ ->]. by rewrite length_imap.
  - by destruct Hl.
  - intros i item Hi. destruct (loaded_lookup pf i item Hl Hi) as [H2 (e & He & H1)].
    split_and!; [done|lia| |by exists e].
    rewrite H2. apply lookup_lt_Some in He. lia.
  - by destruct Hw.
  - by apply print_in_bounds.
  - intros pf' Hsteps.
    destruct (traverse_steps_preserve _ _ (state_ok_start nodes triples) Hsteps)
      as (Hok & _).
    split; [apply print_in_bounds; by destruct Hok|by apply traverse_in_bounds].
Qed.

(** The bounds on the index of the chain of four nodes. *)
Lemma weight_index_in_bounds_witness :
  let pf := PathFinder.parse_input 4 [(0,1,1); (1,2,2); (2,3,3); (0,3,4)] in
  PathFinder.all_weights pf !! 2%nat = Some (3, 2)
  ∧ (3, 2).2 = Z.of_nat 2
  ∧ Forall is_Some (PathFinder.print (PathFinder.sort_edges pf)).
Proof.
  intros pf.
  destruct (weight_index_in_bounds 4 [(0,1,1); (1,2,2); (2,3,3); (0,3,4)])
    as (_ & _ & Hentry & _ & _ & Hrun).
  split; [reflexivity|]. split.
  - exact (proj1 (Hentry 2%nat (3, 2) eq_refl)).
  - exact (proj1 (Hrun _ (rtc_refl _ _))).
Defined.

(** C8 (amended). [insert_new_edge s d w] is refused - reported, with the
    edge list, the weight index and the counter unchanged - exactly when the
    reverse edge [(d,s,w)] of the same weight is stored. A call that is not
    refused appends one edge and one [(weight, index)] entry and moves the
    counter by one. After an accepted [(s,d,w)] with [s <> d], the same
    triple is accepted again, and [(d,s,w')] with [w' <> w] is refused only
    when [(s,d,w')] was stored before. *)
Theorem insert_new_edge_reverse_only (pf : PathFinder.t) (s d w : Z) :
  let r := PathFinder.insert_new_edge pf s d w in
  (r.2 = Some (PathFinder.CanNotInsert s d) ↔ mkEdge d s w ∈ PathFinder.all_edges pf)
  ∧ (r.2 = None ↔ mkEdge d s w ∉ PathFinder.all_edges pf)
  ∧ (mkEdge d s w ∈ PathFinder.all_edges pf → r.1 = pf)
  ∧ (mkEdge d s w ∉ PathFinder.all_edges pf →
       PathFinder.all_edges r.1 = PathFinder.all_edges pf ++ [mkEdge s d w]
       ∧ PathFinder.all_weights r.1 = PathFinder.all_weights pf ++ [(w, PathFinder.index pf)]
       ∧ PathFinder.index r.1 = PathFinder.index pf + 1
       ∧ PathFinder.traversed_edges r.1 = PathFinder.traversed_edges pf
       ∧ PathFinder.traversed_nodes r.1 = PathFinder.traversed_nodes pf
       ∧ PathFinder.num_of_nodes r.1 = PathFinder.num_of_nodes pf
       ∧ PathFinder.num_of_traversed_edges r.1 = PathFinder.num_of_traversed_edges pf)
  ∧ (r.2 = None → s ≠ d → (PathFinder.insert_new_edge r.1 s d w).2 = None)
  ∧ (∀ w', r.2 = None → w' ≠ w →
       ((PathFinder.insert_new_edge r.1 d s w').2 = None
        ↔ mkEdge s d w' ∉ PathFinder.all_edges pf)).
Proof.
  intros r.
  destruct (decide (mkEdge d s w ∈ PathFinder.all_edges pf)) as [Hin|Hnotin].
  - pose proof (insert_new_edge_rejected pf s d w Hin) as Hr. fold r in Hr.
    rewrite Hr. simpl. split_and!; try done.
  - pose proof (insert_new_edge_accepted pf s d w Hnotin) as Hr. fold r in Hr.
    rewrite Hr. simpl. split_and!; try done.
    + intros _ Hsd. rewrite insert_new_edge_accepted; [done|]. simpl.
      rewrite elem_of_app, list_elem_of_singleton. intros [?|[=]]; done.
    + intros w' _ Hw'. split.
      * intros Hacc Hin. rewrite insert_new_edge_rejected in Hacc; [done|].
        simpl. rewrite elem_of_app. by left.
      * intros Hnotin'. rewrite insert_new_edge_accepted; [done|]. simpl.
        rewrite elem_of_app, list_elem_of_singleton. intros [?|[=]]; done.
Qed.

(** After (0,1,5): the same triple and (1,0,7) are accepted, (1,0,5) is not. *)
Lemma insert_new_edge_reverse_only_witness :
  let pf := (PathFinder.insert_new_edge (PathFinder.create 3) 0 1 5).1 in
  (PathFinder.insert_new_edge pf 0 1 5).2 = None
  ∧ (PathFinder.insert_new_edge pf 1 0 5).2 = Some (PathFinder.CanNotInsert 1 0)
  ∧ (PathFinder.insert_new_edge pf 1 0 7).2 = None.
Proof.
  intros pf.
  destruct (insert_new_edge_reverse_only (PathFinder.create 3) 0 1 5)
    as (_ & _ & _ & _ & Hagain & Hother).
  split; [|split].
  - apply Hagain; [reflexivity|lia].
  - reflexivity.
  - apply (Hother 7); [reflexivity|lia|]. simpl. apply not_elem_of_nil.
Defined.

(** C8, as stated, fails on a self-loop: [(1,1,5)] is its own reverse, so
    the second insertion with the same orientation is refused. *)
Lemma insert_self_loop_twice_refused :
  let pf := (PathFinder.insert_new_edge (PathFinder.create 2) 1 1 5).1 in
  (PathFinder.insert_new_edge (PathFinder.create 2) 1 1 5).2 = None
  ∧ PathFinder.all_edges pf = [mkEdge 1 1 5]
  ∧ PathFinder.insert_new_edge pf 1 1 5 = (pf, Some (PathFinder.CanNotInsert 1 1))
  ∧ ¬ (PathFinder.insert_new_edge pf 1 1 5).2 = None.
Proof. vm_compute. split_and!; done. Qed.

(** C7 as stated fails: the running cost is an [int]. With three nodes and
    the edges (0,1,2147483647) and (1,2,2147483647) both edges are accepted,
    the tree holds weights that sum to 4294967294 and the cost it reports is
    -2; already one [add_edge] of weight 1 onto a cost of 2147483647 gives
    -2147483648. *)
Lemma cost_wraps_past_int_max :
  (∃ pf mst, main 2 3 [(0,1,2147483647); (1,2,2147483647)] = Returns (pf, mst)
     ∧ SpanningTree.traversed_edges mst = [mkEdge 0 1 2147483647; mkEdge 1 2 2147483647]
     ∧ total_weight (SpanningTree.traversed_edges mst) = 4294967294
     ∧ SpanningTree.mst_cost mst = -2
     ∧ ¬ cost_is_sum mst)
  ∧ cost_is_sum (SpanningTree.mk 2147483647 [mkEdge 0 1 2147483647])
  ∧ SpanningTree.mst_cost
      (SpanningTree.add_edge (SpanningTree.mk 2147483647 [mkEdge 0 1 2147483647])
         (mkEdge 1 2 1)) = -2147483648
  ∧ ¬ cost_is_sum
        (SpanningTree.add_edge (SpanningTree.mk 2147483647 [mkEdge 0 1 2147483647])
           (mkEdge 1 2 1)).
Proof.
  split; [|split_and!; [reflexivity|reflexivity|by vm_compute]].
  eexists _, _. split; [vm_compute; reflexivity|].
  split_and!; [reflexivity|reflexivity|reflexivity|by vm_compute].
Qed.

(** C7, amended. The cost the accumulator reports is the sum of the weights
    of the edges it holds as an [int] holds it, and so the sum itself exactly
    when the sum lies in [INT_MIN .. INT_MAX]: [add_edge] appends the edge and
    adds its weight once, in [int] arithmetic; this is kept by any sequence of
    [add_edge] calls and holds for the tree [main] ends with. *)
Theorem mst_cost_is_int_sum_of_weights :
  (∀ st e, SpanningTree.traversed_edges (SpanningTree.add_edge st e)
             = SpanningTree.traversed_edges st ++ [e]
           ∧ SpanningTree.mst_cost (SpanningTree.add_edge st e)
             = int_wrap (SpanningTree.mst_cost st + weight e)
           ∧ (cost_is_int_sum st → cost_is_int_sum (SpanningTree.add_edge st e))
           ∧ (cost_is_sum st → in_int_range (SpanningTree.mst_cost st + weight e) →
              cost_is_sum (SpanningTree.add_edge st e)))
  ∧ (∀ es, let st := foldl SpanningTree.add_edge SpanningTree.create es in
           SpanningTree.traversed_edges st = es
           ∧ SpanningTree.mst_cost st = int_wrap (total_weight es)
           ∧ (cost_is_sum st ↔ in_int_range (total_weight es)))
  ∧ (∀ fuel nodes triples,
       match main fuel nodes triples with
       | Returns (_, mst) =>
           SpanningTree.mst_cost mst
             = int_wrap (total_weight (SpanningTree.traversed_edges mst))
           ∧ (cost_is_sum mst
              ↔ in_int_range (total_weight (SpanningTree.traversed_edges mst)))
       | _ => True
       end).
Proof.
  assert (∀ st, cost_is_int_sum st →
            (cost_is_sum st ↔ in_int_range (total_weight (SpanningTree.traversed_edges st))))
    as Hexact.
  { intros st Hst. unfold cost_is_sum. rewrite Hst. apply int_wrap_fixed. }
  assert (cost_is_int_sum SpanningTree.create) as Hstart by reflexivity.
  split_and!.
  - intros st e. split_and!; [done|done|apply cost_is_int_sum_add_edge|].
    unfold cost_is_sum. simpl. intros -> Hrange.
    rewrite total_weight_snoc. by apply int_wrap_fixed.
  - intros es st.
    pose proof (cost_is_int_sum_foldl es _ Hstart) as Hst. fold st in Hst.
    assert (SpanningTree.traversed_edges st = es) as Hes.
    { unfold st. by rewrite add_edge_foldl. }
    pose proof (Hexact st Hst) as Hiff. unfold cost_is_int_sum in Hst.
    rewrite Hes in Hst, Hiff. done.
  - intros fuel nodes triples. unfold main, select_all.
    destruct (PathFinder.traverse _) as [[p pf']| |]; [|done..].
    pose proof (cost_is_int_sum_main_loop fuel pf' SpanningTree.create p Hstart) as Hloop.
    destruct (main_loop _ _ _ _) as [[pf'' mst]| |]; [|done..].
    split; [done|by apply Hexact].
Qed.

(** On the chain of four nodes the weights sum to 6, within the range of
    [int], and 6 is the cost reported. *)
Lemma mst_cost_is_int_sum_of_weights_witness :
  let st := SpanningTree.mk 3 [mkEdge 0 1 1; mkEdge 1 2 2] in
  cost_is_sum st ∧ in_int_range (3 + 3)
  ∧ cost_is_sum (SpanningTree.add_edge st (mkEdge 2 3 3)).
Proof.
  destruct mst_cost_is_int_sum_of_weights as (Hadd & _ & _).
  destruct (Hadd (SpanningTree.mk 3 [mkEdge 0 1 1; mkEdge 1 2 2]) (mkEdge 2 3 3))
    as (_ & _ & _ & Hsum).
  assert (cost_is_sum (SpanningTree.mk 3 [mkEdge 0 1 1; mkEdge 1 2 2])) as Hst
    by reflexivity.
  assert (in_int_range (3 + 3)) as Hrange by (unfold in_int_range, INT_MIN, INT_MAX; lia).
  split; [exact Hst|]. split; [exact Hrange|]. exact (Hsum Hst Hrange).
Defined.

(** ** Fuel of the driver loop *)

Lemma main_loop_more_fuel fuel extra pf mst p :
  main_loop fuel pf mst p ≠ OutOfFuel →
  main_loop (fuel + extra) pf mst p = main_loop fuel pf mst p.
Proof.
  revert pf mst p. induction fuel as [|fuel IH]; intros pf mst p Hne.
  - destruct p; simpl in *; [by destruct extra|done..].
  - simpl in *. destruct p as [|e|i]; [done| |].
    + simpl in *. destruct (PathFinder.traverse pf) as [[p' pf']| |]; [|done..].
      by apply IH.
    + simpl in *. destruct (vector_at _ _); [|done].
      destruct (PathFinder.traverse pf) as [[p' pf']| |]; [|done..].
      by apply IH.
Qed.

Lemma main_more_fuel fuel extra nodes triples :
  main fuel nodes triples ≠ OutOfFuel →
  main (fuel + extra) nodes triples = main fuel nodes triples.
Proof.
  unfold main, select_all. destruct (PathFinder.traverse _) as [[p pf']| |]; [|done..].
  apply main_loop_more_fuel.
Qed.

(** Two runs that both have fuel enough agree. *)
Lemma main_fuel_irrelevant fuel1 fuel2 nodes triples :
  main fuel1 nodes triples ≠ OutOfFuel → main fuel2 nodes triples ≠ OutOfFuel →
  main fuel1 nodes triples = main fuel2 nodes triples.
Proof.
  intros H1 H2. destruct (Nat.le_ge_cases fuel1 fuel2) as [Hle|Hle].
  - replace fuel2 with (fuel1 + (fuel2 - fuel1))%nat by lia.
    by rewrite main_more_fuel.
  - replace fuel1 with (fuel2 + (fuel1 - fuel2))%nat by lia.
    by rewrite main_more_fuel.
Qed.

(** C2. With four nodes and the edges (0,1,1), (1,2,2), (2,3,3), (0,3,4)
    inserted in this order, the run accepts (0,1,1), (1,2,2), (2,3,3) in this
    order and then reports completion; the cost of the tree is 6. *)
Theorem chain_of_four_nodes (extra : nat) :
  ∃ pf, main (3 + extra) 4 [(0,1,1); (1,2,2); (2,3,3); (0,3,4)]
          = Returns (pf, SpanningTree.mk 6 [mkEdge 0 1 1; mkEdge 1 2 2; mkEdge 2 3 3])
        ∧ PathFinder.num_of_traversed_edges pf = 3
        ∧ PathFinder.traverse pf = Returns (PathFinder.nullptr, pf).
Proof.
  eexists. split; [|split].
  - rewrite main_more_fuel; [vm_compute; reflexivity|]. by vm_compute.
  - reflexivity.
  - vm_compute. reflexivity.
Qed.

(** C3 on the program: with four nodes and edges joining only {0,1} and
    {2,3}, the third call of [traverse] walks the whole weight index with two
    edges accepted and reaches the end of the function without a [return]:
    no completion is reported. *)
Theorem disconnected_run_flows_off_end (extra : nat) :
  main (2 + extra) 4 [(0,1,1); (2,3,2)] = Undefined FlowsOffEnd
  ∧ ∃ p1 pf1 p2 pf2,
      PathFinder.traverse
        (PathFinder.sort_edges (PathFinder.parse_input 4 [(0,1,1); (2,3,2)]))
        = Returns (p1, pf1)
      ∧ PathFinder.traverse pf1 = Returns (p2, pf2)
      ∧ PathFinder.num_of_traversed_edges pf2 = 2
      ∧ PathFinder.traverse pf2 = Undefined FlowsOffEnd.
Proof.
  split; [rewrite main_more_fuel; [vm_compute; reflexivity|by vm_compute]|].
  do 4 eexists. split; [vm_compute; reflexivity|]. split; [vm_compute; reflexivity|].
  split; vm_compute; reflexivity.
Qed.

(** With one node and no edge the weight index is empty: the first call
    leaves the loop at once, although the counter is at [num_of_nodes - 1]. *)
Lemma single_node_without_edges fuel : main fuel 1 [] = Undefined FlowsOffEnd.
Proof. reflexivity. Qed.

(** ** Single pass *)

Lemma elem_of_single_pass_fold s d (l T : list (Z * Z)) p :
  p ∈ foldl (λ T e, foldl (λ T p, set_insert pair_ltb p T) T (contrib s d e)) T l
  ↔ p ∈ T ∨ ∃ e, e ∈ l ∧ p ∈ contrib s d e.
Proof.
  revert T. induction l as [|x l IH]; intros T; simpl.
  - split; [by left|]. intros [?|(e & [] %elem_of_nil & _)]. done.
  - rewrite IH, elem_of_foldl_set_insert. split.
    + intros [[?|?]|(e & ? & ?)]; [by left|right; exists x|right; exists e];
        (split; [|done]); [by left|by right].
    + intros [?|(e & [ ->|?]%elem_of_cons & ?)]; [by left; left|by left; right|].
      right. by exists e.
Qed.

Lemma single_pass_fold_sorted s d (l T : list (Z * Z)) :
  StronglySorted pair_lt T →
  StronglySorted pair_lt
    (foldl (λ T e, foldl (λ T p, set_insert pair_ltb p T) T (contrib s d e)) T l).
Proof.
  revert T. induction l as [|x l IH]; intros T HT; simpl; [done|].
  by apply IH, foldl_set_insert_sorted.
Qed.

(** C5. One call of [augment_components source destination] adds to the
    recorded pairs exactly what one pass over the pairs known on entry
    yields: [(x,destination)] for each known [(x,source)] with
    [x <> destination], and [(source,y)] for each known [(destination,y)]
    with [y <> source]. The loop runs over the set it inserts into, and still
    the pairs it inserts trigger no further insertion: the result is that of
    the pass over the snapshot, not a closure. *)
Theorem augment_components_single_pass (pf : PathFinder.t) (source destination : Z) :
  StronglySorted pair_lt (PathFinder.traversed_edges pf) →
  ∃ pf', PathFinder.augment_components pf source destination = Returns pf'
    ∧ (∀ p, p ∈ PathFinder.traversed_edges pf'
            ↔ p ∈ PathFinder.traversed_edges pf
              ∨ (∃ x, (x, source) ∈ PathFinder.traversed_edges pf
                      ∧ x ≠ destination ∧ p = (x, destination))
              ∨ (∃ y, (destination, y) ∈ PathFinder.traversed_edges pf
                      ∧ y ≠ source ∧ p = (source, y)))
    ∧ PathFinder.traversed_edges pf'
      = propagate_single_pass source destination (PathFinder.traversed_edges pf)
    ∧ same_graph pf pf'.
Proof.
  intros Hsorted.
  destruct (augment_components_spec pf source destination Hsorted)
    as (pf' & Hret & Hsame & Hsorted' & Hin).
  exists pf'. split_and!; [done| | |done].
  - intros p. rewrite Hin. split.
    + intros [?|([a b] & He & Hp)]; [by left|right].
      apply elem_of_contrib in Hp as [(Hb & Ha & ->)|(Ha & Hb & ->)]; simpl in *; subst.
      * left. by exists a.
      * right. by exists b.
    + intros [?|[(x & Hx & Hne & ->)|(y & Hy & Hne & ->)]]; [by left|right..].
      * exists (x, source). split; [done|]. apply elem_of_contrib. by left.
      * exists (destination, y). split; [done|]. apply elem_of_contrib. by right.
  - apply sorted_pairs_ext; [done|by apply single_pass_fold_sorted|].
    intros p. unfold propagate_single_pass.
    by rewrite Hin, elem_of_single_pass_fold.
Qed.

(** Accepting (1,2) with (0,1), (1,2), (2,3) recorded adds (0,2) and (1,3);
    the pair (0,3), which follows from (0,2) and (2,3), is not added. *)
Lemma augment_components_single_pass_witness :
  let pf := PathFinder.mk [] [] [(0,1); (1,2); (2,3)] 0 4 2 [0; 1; 2; 3] in
  ∃ pf', PathFinder.augment_components pf 1 2 = Returns pf'
         ∧ PathFinder.traversed_edges pf' = [(0,1); (0,2); (1,2); (1,3); (2,3)]
         ∧ (0, 3) ∉ PathFinder.traversed_edges pf'.
Proof.
  intros pf.
  assert (StronglySorted pair_lt (PathFinder.traversed_edges pf)) as Hsorted.
  { simpl. repeat constructor; unfold pair_lt; simpl; lia. }
  destruct (augment_components_single_pass pf 1 2 Hsorted) as (pf' & Hret & _ & Hpass & _).
  exists pf'. split; [exact Hret|]. split; [exact Hpass|].
  rewrite Hpass. intros Hin. vm_compute in Hin.
  repeat (apply elem_of_cons in Hin as [Hin|Hin]; [discriminate Hin|]).
  by apply elem_of_nil in Hin.
Defined.

(** ** Order of the weight index *)

Lemma sorted_lookup_lt {A} (R : relation A) (l : list A) (i j : nat) a b :
  StronglySorted R l → (i < j)%nat → l !! i = Some a → l !! j = Some b → R a b.
Proof.
  intros Hl. revert i j. induction Hl as [|x l Hl IH Hx]; intros i j Hij Hi Hj; [done|].
  destruct j as [|j]; [lia|]. destruct i as [|i]; simplify_eq/=.
  - rewrite Forall_forall in Hx. by eapply Hx, list_elem_of_lookup_2.
  - eapply (IH i j); [lia|done..].
Qed.

Lemma sorted_le_NoDup_lt (l : list (Z * Z)) :
  StronglySorted pair_le l → NoDup l → StronglySorted pair_lt l.
Proof.
  induction 1 as [|x l Hl IH Hx]; intros Hnd; [constructor|].
  apply NoDup_cons in Hnd as [Hnotin Hnd]. constructor; [by apply IH|].
  rewrite Forall_forall in Hx. apply Forall_forall. intros y Hy.
  destruct (Hx y Hy) as [?| ->]; done.
Qed.

(** C6. [sort_edges] leaves the weight index ascending in the key
    (weight, insertion index), so that entries of one weight keep their
    insertion order; this arrangement is the only ascending one, whatever
    routine sorts; and two runs on the same input that both come to an end
    end alike, with the same path finder state, the same sequence of
    accepted edges and the same cost. *)
Theorem selection_is_deterministic (nodes : Z) (triples : list (Z * Z * Z)) :
  let pf := PathFinder.parse_input nodes triples in
  let sorted := PathFinder.all_weights (PathFinder.sort_edges pf) in
  sorted ≡ₚ PathFinder.all_weights pf
  ∧ StronglySorted pair_le sorted
  ∧ (∀ i j a b, (i < j)%nat → sorted !! i = Some a → sorted !! j = Some b →
       a.1 < b.1 ∨ (a.1 = b.1 ∧ a.2 < b.2))
  ∧ (∀ item, item ∈ sorted →
       ∃ e, PathFinder.all_edges pf !! Z.to_nat item.2 = Some e
            ∧ 0 ≤ item.2 ∧ weight e = item.1)
  ∧ (∀ l, l ≡ₚ PathFinder.all_weights pf → StronglySorted pair_le l → l = sorted)
  ∧ (∀ l fuel, l ≡ₚ PathFinder.all_weights pf → StronglySorted pair_le l →
       select_all fuel (PathFinder.set_all_weights pf l) = main fuel nodes triples)
  ∧ (∀ fuel1 fuel2,
       main fuel1 nodes triples ≠ OutOfFuel → main fuel2 nodes triples ≠ OutOfFuel →
       main fuel1 nodes triples = main fuel2 nodes triples).
Proof.
  intros pf sorted.
  pose proof (loaded_weights_ok pf (loaded_parse_input nodes triples)) as Hw.
  assert (sorted ≡ₚ PathFinder.all_weights pf) as Hperm by apply sort_pairs_perm.
  split_and!.
  - done.
  - apply sort_pairs_sorted.
  - intros i j a b Hij Ha Hb.
    apply (sorted_lookup_lt pair_lt sorted i j); [|done..].
    apply sorted_le_NoDup_lt; [apply sort_pairs_sorted|].
    rewrite Hperm. destruct Hw as [Hnd _]. by apply NoDup_fmap_snd_NoDup.
  - intros item Hin. rewrite Hperm in Hin.
    destruct (weights_ok_lookup pf item Hw Hin) as (e & He & Hwe).
    apply vector_at_Some in He as [? ?]. by exists e.
  - intros l Hl Hs. by apply sort_pairs_unique.
  - intros l fuel Hl Hs. by rewrite (sort_pairs_unique _ l Hl Hs).
  - intros fuel1 fuel2. apply main_fuel_irrelevant.
Qed.

(** Three nodes, two edges of weight 5: the index is sorted as (1,2), (5,0),
    (5,1) and the run does not depend on the fuel. *)
Lemma selection_is_deterministic_witness :
  main 3 3 [(0,1,5); (1,2,5); (0,2,1)] = main 7 3 [(0,1,5); (1,2,5); (0,2,1)]
  ∧ PathFinder.all_weights
      (PathFinder.sort_edges (PathFinder.parse_input 3 [(0,1,5); (1,2,5); (0,2,1)]))
    = [(1, 2); (5, 0); (5, 1)].
Proof.
  destruct (selection_is_deterministic 3 [(0,1,5); (1,2,5); (0,2,1)])
    as (_ & _ & _ & _ & Hunique & _ & Hfuel).
  split.
  - apply Hfuel; by vm_compute.
  - symmetry. apply Hunique.
    + vm_compute. apply Permutation_cons_append.
    + repeat constructor; (left; unfold pair_lt; simpl; lia).
Defined.

(** ** Rejection of an edge that closes a cycle *)




(** ** Connectivity *)

Lemma joined_subrel pairs pairs' u v :
  (∀ a b, (a, b) ∈ pairs → joined pairs' a b) → joined pairs u v → joined pairs' u v.
Proof.
  intros Hsub Huv. induction Huv as [x|x y z [Hxy|Hyx] _ IH]; [done| |].
  - trans y; [by apply Hsub|done].
  - trans y; [symmetry; by apply Hsub|done].
Qed.

Lemma joined_cons p pairs u v : joined pairs u v → joined (p :: pairs) u v.
Proof.
  apply joined_subrel. intros a b Hab. apply rtsc_lr. by right.
Qed.

Lemma component_label_pair pairs u v :
  (u, v) ∈ pairs → component_label pairs u = component_label pairs v.
Proof.
  induction pairs as [|[a b] pairs IH]; intros Hin; [by apply elem_of_nil in Hin|].
  simpl. apply elem_of_cons in Hin as [[= -> ->]|Hin].
  - rewrite (decide_True (P := component_label pairs b = component_label pairs b)) by done.
    by destruct (decide _).
  - by rewrite (IH Hin).
Qed.

Lemma component_label_joined pairs u v :
  joined pairs u v → component_label pairs u = component_label pairs v.
Proof.
  induction 1 as [x|x y z [Hxy|Hyx] _ IH]; [done| |].
  - by rewrite (component_label_pair _ _ _ Hxy).
  - by rewrite <- (component_label_pair _ _ _ Hyx).
Qed.

(** Each pair merges at most two components. *)
Lemma component_label_count (nodes : gset Z) pairs :
  (size nodes ≤ size (set_map (C := gset Z) (D := gset Z) (component_label pairs) nodes)
                + length pairs)%nat.
Proof.
  induction pairs as [|[a b] pairs IH]; simpl.
  - rewrite Nat.add_0_r. apply subseteq_size. intros x Hx.
    apply elem_of_map. by exists x.
  - set (f := component_label pairs) in *.
    set (X := set_map (C := gset Z) (D := gset Z) f nodes) in *.
    set (Y := set_map (C := gset Z) (D := gset Z)
                (λ x, if decide (f x = f b) then f a else f x) nodes).
    assert (X ∖ {[f b]} ⊆ Y) as Hsub.
    { intros y [Hy Hne]%elem_of_difference. apply elem_of_map in Hy as (x & -> & Hx).
      apply elem_of_map. exists x. split; [|done].
      rewrite decide_False; [done|]. intros Heq. apply Hne. by apply elem_of_singleton. }
    apply subseteq_size in Hsub. rewrite size_difference_alt in Hsub.
    assert (size (X ∩ {[f b]}) ≤ 1)%nat.
    { rewrite <- (size_singleton (C := gset Z) (f b)). apply subseteq_size.
      apply intersection_subseteq_r. }
    lia.
Qed.

(** A list of pairs that joins all of [n] nodes has at least [n - 1] pairs. *)
Lemma joined_all_length (n : Z) pairs :
  (∀ u v, 0 ≤ u < n → 0 ≤ v < n → joined pairs u v) → n - 1 ≤ Z.of_nat (length pairs).
Proof.
  intros Hall. destruct (decide (n ≤ 0)) as [?|Hn]; [lia|].
  set (nodes := list_to_set (C := gset Z) (seqZ 0 n)).
  assert (size nodes = Z.to_nat n) as Hsize.
  { unfold nodes. rewrite size_list_to_set by apply NoDup_seqZ. apply length_seqZ. }
  pose proof (component_label_count nodes pairs) as Hcount.
  assert (set_map (C := gset Z) (D := gset Z) (component_label pairs) nodes
          ⊆ {[component_label pairs 0]}) as Hone.
  { intros y (x & -> & Hx)%elem_of_map. apply elem_of_singleton.
    apply elem_of_list_to_set, elem_of_seqZ in Hx.
    apply component_label_joined, Hall; lia. }
  apply subseteq_size in Hone. rewrite size_singleton in Hone. lia.
Qed.

(** ** The run on a connected graph *)

Lemma filter_length_le {A} (P Q : A → bool) (l : list A) :
  (∀ y, Q y = true → P y = true) →
  (length (List.filter Q l) ≤ length (List.filter P l))%nat.
Proof.
  intros HQP. induction l as [|y l IH]; simpl; [lia|].
  destruct (Q y) eqn:HQ; [rewrite (HQP y HQ); simpl; lia|].
  destruct (P y); simpl; lia.
Qed.

Lemma filter_length_lt {A} (P Q : A → bool) (l : list A) x :
  (∀ y, Q y = true → P y = true) → x ∈ l → P x = true → Q x = false →
  (length (List.filter Q l) < length (List.filter P l))%nat.
Proof.
  intros HQP Hin HP HQ. induction l as [|y l IH]; [by apply elem_of_nil in Hin|].
  pose proof (filter_length_le P Q l HQP) as Hle. simpl.
  apply elem_of_cons in Hin as [<-|Hin].
  - rewrite HP, HQ. simpl. lia.
  - specialize (IH Hin). destruct (Q y) eqn:HQy; [rewrite (HQP y HQy); simpl; lia|].
    destruct (P y); simpl; lia.
Qed.

Lemma filter_length_middle {A} (P : A → bool) (l1 l2 : list A) x :
  P x = true →
  (length (List.filter P (l1 ++ l2)) < length (List.filter P (l1 ++ x :: l2)))%nat.
Proof.
  intros HP. rewrite !List.filter_app, !length_app. simpl. rewrite HP. simpl. lia.
Qed.

Lemma pending_le pf : (pending pf ≤ length (PathFinder.all_weights pf))%nat.
Proof.
  unfold pending. induction (PathFinder.all_weights pf) as [|x l IH]; simpl; [lia|].
  destruct (negb _); simpl; lia.
Qed.

Lemma check_cycle_joined pf acc s d :
  (∀ a b, (a, b) ∈ PathFinder.traversed_edges pf → joined acc a b) →
  PathFinder.check_cycle pf s d = true → joined acc s d.
Proof.
  intros Hpairs Hc.
  apply check_cycle_true_iff in Hc
    as (k & _ & [[H1 H2]|[H1 H2]]); apply Hpairs in H1, H2.
  - trans k; [done|by symmetry].
  - trans k; [by symmetry|done].
Qed.

(** The initial state of a run satisfies the invariant. *)
Lemma run_inv_start nodes triples :
  1 ≤ nodes → triples ≠ [] →
  let pf0 := PathFinder.sort_edges (PathFinder.parse_input nodes triples) in
  run_inv nodes (PathFinder.all_edges pf0) pf0 [].
Proof.
  intros Hn Hne pf0.
  pose proof (loaded_parse_input nodes triples) as [Hidx Hw].
  destruct (fresh_parse_input nodes triples) as (HT & _ & Hc & Hnodes).
  assert (PathFinder.all_weights pf0 ≡ₚ PathFinder.all_weights (PathFinder.parse_input nodes triples))
    as Hperm by apply sort_pairs_perm.
  split.
  - apply state_ok_start.
  - done.
  - exact Hnodes.
  - exact Hc.
  - change (PathFinder.num_of_traversed_edges
              (PathFinder.parse_input nodes triples) ≤ nodes - 1). lia.
  - change (∀ a b, (a, b) ∈ PathFinder.traversed_edges
                              (PathFinder.parse_input nodes triples) → joined [] a b).
    rewrite HT. intros a b Hab. by apply elem_of_nil in Hab.
  - intros i e He. left. exists (weight e).
    rewrite Hperm, Hw. apply list_elem_of_lookup. exists i.
    change (PathFinder.all_edges pf0)
      with (PathFinder.all_edges (PathFinder.parse_input nodes triples)) in He.
    by rewrite list_lookup_imap, He.
  - intros Hnil. rewrite Hnil in Hperm.
    symmetry in Hperm. apply Permutation_nil_r in Hperm. rewrite Hw in Hperm.
    destruct triples as [|[[s d] w] triples]; [done|].
    unfold PathFinder.parse_input in Hperm. simpl in Hperm.
    assert (∀ ts pf, PathFinder.all_edges pf ≠ [] →
              PathFinder.all_edges
                (foldl (λ pf '(s, d, w), (PathFinder.insert_new_edge pf s d w).1) pf ts) ≠ [])
      as Hgrow.
    { clear. induction ts as [|[[s d] w] ts IH]; intros pf Hpf; simpl; [done|].
      apply IH. unfold PathFinder.insert_new_edge.
      destruct (existsb _ _); simpl; [done|]. by destruct (PathFinder.all_edges pf). }
    specialize (Hgrow triples (PathFinder.insert_new_edge (PathFinder.create nodes) s d w).1).
    destruct (PathFinder.all_edges _); [|done]. by apply Hgrow.
  - left. exact HT.
Qed.

Lemma skips_mono pf pf' item :
  PathFinder.all_edges pf' = PathFinder.all_edges pf →
  (∀ q, q ∈ PathFinder.traversed_edges pf → q ∈ PathFinder.traversed_edges pf') →
  skips pf item = true → skips pf' item = true.
Proof.
  intros He HT. unfold skips. rewrite He.
  destruct (vector_at _ _) as [e|]; [|done].
  rewrite !is_edge_traversed_elem_of. apply HT.
Qed.

(** One returning call keeps the invariant; a call that does not report
    completion leaves fewer entries pending. *)
Lemma run_inv_step n E pf acc p pf' :
  run_inv n E pf acc → PathFinder.traverse pf = Returns (p, pf') →
  ∃ acc', run_inv n E pf' acc'
    ∧ match p with
      | PathFinder.nullptr =>
          pf' = pf ∧ PathFinder.num_of_traversed_edges pf = n - 1 ∧ acc' = acc
      | PathFinder.new_Edge e =>
          e = mkEdge (-1) (-1) (-1) ∧ (pending pf' < pending pf)%nat ∧ acc' = acc
      | PathFinder.elem_ptr i =>
          is_Some (vector_at (PathFinder.all_edges pf') i)
          ∧ (pending pf' < pending pf)%nat ∧ length acc' = S (length acc)
      end.
Proof.
  intros Hinv Hret.
  destruct (traverse_preserves pf p pf' (inv_ok _ _ _ _ Hinv) Hret)
    as (Hok' & Hedges' & Hnodes' & Hsub' & Hmono').
  pose proof (traverse_case_of pf (inv_ok _ _ _ _ Hinv)) as Hcase.
  rewrite Hret in Hcase.
  inversion Hcase as [| |Hclosed Hne
                      |pre item post e Hopen Hitems Hpre He Ht Hc
                      |pre item post e pf'' Hopen Hitems Hpre He Ht Hc Haug];
    simplify_eq.
  - (* completion *)
    exists acc. split; [done|]. split_and!; [done| |done].
    rewrite <- (inv_nodes _ _ _ _ Hinv). unfold selection_open in Hclosed. lia.
  - (* rejection *)
    assert (joined acc (source e) (destination e)) as Hjoin.
    { eapply check_cycle_joined; [apply (inv_pairs _ _ _ _ Hinv)|done]. }
    assert (skips pf item = false) as Hitem by (unfold skips; by rewrite He).
    assert (∃ item0, item0 ∈ pre ++ post ∧ skips pf item0 = true) as (item0 & Hin0 & Hskip0).
    { destruct (inv_anchor _ _ _ _ Hinv) as [HT|(item0 & Hin0 & Hskip0)].
      - apply check_cycle_true_iff in Hc
          as (k & _ & [[H1 _]|[H1 _]]); rewrite HT in H1; by apply elem_of_nil in H1.
      - exists item0. split; [|done]. rewrite Hitems in Hin0.
        rewrite elem_of_app, elem_of_cons in Hin0. rewrite elem_of_app.
        destruct Hin0 as [?|[ ->|?]]; [by left|congruence|by right]. }
    exists acc. split; [split|split_and!; [done| |done]].
    + done.
    + apply (inv_edges _ _ _ _ Hinv).
    + apply (inv_nodes _ _ _ _ Hinv).
    + apply (inv_count _ _ _ _ Hinv).
    + apply (inv_bound _ _ _ _ Hinv).
    + apply (inv_pairs _ _ _ _ Hinv).
    + intros i e' He'. destruct (inv_covered _ _ _ _ Hinv i e' He') as [(w & Hw)|?]; [|by right].
      rewrite Hitems, elem_of_app, elem_of_cons in Hw.
      destruct Hw as [Hw|[<-|Hw]].
      * left. exists w. simpl. rewrite elem_of_app. by left.
      * right. simpl in He. rewrite vector_at_lookup in He.
        rewrite (inv_edges _ _ _ _ Hinv) in He. by simplify_eq.
      * left. exists w. simpl. rewrite elem_of_app. by right.
    + simpl. intros Hnil. rewrite Hnil in Hin0. by apply elem_of_nil in Hin0.
    + right. exists item0. by split.
    + unfold pending. simpl. rewrite Hitems.
      apply filter_length_middle. by rewrite Hitem.
  - (* acceptance *)
    destruct (augment_components_spec
                (PathFinder.mark_traversed pf (source e) (destination e))
                (source e) (destination e)) as (pf2 & Hret2 & Hsame & _ & Hin2).
    { apply mark_traversed_sorted. by destruct (inv_ok _ _ _ _ Hinv). }
    rewrite Haug in Hret2. simplify_eq.
    destruct Hsame as (Hsw & Hse & _ & Hsn & Hsc). simpl in Hsw, Hse, Hsn, Hsc.
    set (s := source e) in *. set (d := destination e) in *.
    assert ((s, d) ∈ PathFinder.traversed_edges pf2) as Hsd.
    { apply Hin2. left. apply elem_of_mark_traversed. by left. }
    assert (skips pf2 item = true) as Hitem'.
    { apply (skips_elem_of pf2 item e); [by rewrite Hse|done]. }
    assert (item ∈ PathFinder.all_weights pf) as Hitem_in.
    { rewrite Hitems, elem_of_app, elem_of_cons. auto. }
    exists ((s, d) :: acc). split; [split|split_and!; [| |done]].
    + done.
    + rewrite Hse. apply (inv_edges _ _ _ _ Hinv).
    + rewrite Hsn. apply (inv_nodes _ _ _ _ Hinv).
    + rewrite Hsc, (inv_count _ _ _ _ Hinv). simpl length. lia.
    + rewrite Hsc. pose proof (inv_bound _ _ _ _ Hinv) as Hb.
      pose proof (inv_nodes _ _ _ _ Hinv) as Hn. unfold selection_open in Hopen. lia.
    + assert (∀ a b, (a, b) ∈ PathFinder.traversed_edges
                        (PathFinder.mark_traversed pf s d) → joined ((s, d) :: acc) a b)
        as Hmark.
      { intros a b [[= -> ->]|Hab]%elem_of_mark_traversed.
        - apply rtsc_lr. by left.
        - by apply joined_cons, (inv_pairs _ _ _ _ Hinv). }
      assert (joined ((s, d) :: acc) s d) as Hjsd by (apply rtsc_lr; by left).
      intros a b [Hab|([x y] & Hxy & Hc')]%Hin2; [by apply Hmark|].
      apply elem_of_contrib in Hc' as [(Hy & _ & [= -> ->])|(Hx & _ & [= -> ->])];
        simpl in *; subst.
      * trans s; [by apply Hmark|done].
      * trans d; [done|by apply Hmark].
    + intros i e' He'. destruct (inv_covered _ _ _ _ Hinv i e' He') as [(w & Hw)|?].
      * left. exists w. by rewrite Hsw.
      * right. by apply joined_cons.
    + rewrite Hsw. apply (inv_nonempty _ _ _ _ Hinv).
    + right. exists item. split; [by rewrite Hsw|done].
    + exists e. by rewrite Hse.
    + unfold pending. rewrite Hsw. apply filter_length_lt with item.
      * intros y Hy. apply negb_true_iff in Hy. apply negb_true_iff.
        destruct (skips pf y) eqn:Hskip; [|done].
        rewrite (skips_mono pf pf2 y) in Hy; done.
      * done.
      * unfold skips. rewrite He. unfold s, d in Ht. by rewrite Ht.
      * by rewrite Hitem'.
Qed.

(** On a connected graph a call never runs off the end of the index. *)
Lemma run_inv_progress n E pf acc :
  run_inv n E pf acc →
  (∀ u v, 0 ≤ u < n → 0 ≤ v < n → joined (edge_pairs E) u v) →
  ∃ p pf', PathFinder.traverse pf = Returns (p, pf').
Proof.
  intros Hinv Hconn.
  pose proof (traverse_case_of pf (inv_ok _ _ _ _ Hinv)) as Hcase.
  destruct Hcase as [Hnil|Hopen Hall| | |]; [| |by eauto..].
  - by destruct (inv_nonempty _ _ _ _ Hinv).
  - exfalso. apply Hopen.
    assert (n - 1 ≤ Z.of_nat (length acc)) as Hlen.
    { apply joined_all_length. intros u v Hu Hv.
      eapply joined_subrel; [|by apply Hconn].
      intros a b (e & [= -> ->] & [i Hi]%list_elem_of_lookup_1)%list_elem_of_fmap.
      destruct (inv_covered _ _ _ _ Hinv i e Hi) as [(w & Hw)|?]; [|done].
      rewrite Forall_forall in Hall. specialize (Hall _ Hw).
      unfold skips in Hall. simpl in Hall.
      rewrite vector_at_lookup, (inv_edges _ _ _ _ Hinv), Hi in Hall.
      apply is_edge_traversed_elem_of in Hall. by apply (inv_pairs _ _ _ _ Hinv). }
    pose proof (inv_bound _ _ _ _ Hinv). pose proof (inv_count _ _ _ _ Hinv).
    rewrite (inv_nodes _ _ _ _ Hinv). lia.
Qed.

Lemma main_loop_completes n E fuel pf acc mst p :
  (∀ u v, 0 ≤ u < n → 0 ≤ v < n → joined (edge_pairs E) u v) →
  run_inv n E pf acc → returned_ok n fuel pf p →
  (Forall (λ e, is_sentinel e = false) E →
   (length (SpanningTree.traversed_edges mst) + owed p = length acc)%nat) →
  ∃ pf' mst', main_loop fuel pf mst p = Returns (pf', mst')
              ∧ PathFinder.num_of_traversed_edges pf' = n - 1
              ∧ PathFinder.traverse pf' = Returns (PathFinder.nullptr, pf')
              ∧ (Forall (λ e, is_sentinel e = false) E →
                 Z.of_nat (length (SpanningTree.traversed_edges mst')) = n - 1).
Proof.
  intros Hconn. revert pf acc mst p.
  assert (∀ pf acc mst, run_inv n E pf acc → PathFinder.num_of_traversed_edges pf = n - 1 →
            (Forall (λ e, is_sentinel e = false) E →
             (length (SpanningTree.traversed_edges mst) + 0 = length acc)%nat) →
            PathFinder.traverse pf = Returns (PathFinder.nullptr, pf)
            ∧ (Forall (λ e, is_sentinel e = false) E →
               Z.of_nat (length (SpanningTree.traversed_edges mst)) = n - 1)) as Hdone.
  { intros pf acc mst Hinv Hcount Hmst.
    split; [|intros HE; specialize (Hmst HE); pose proof (inv_count _ _ _ _ Hinv); lia].
    destruct (PathFinder.all_weights pf) as [|item rest] eqn:Hitems.
    { by destruct (inv_nonempty _ _ _ _ Hinv). }
    destruct (inv_ok _ _ _ _ Hinv) as [Hw _].
    destruct (weights_ok_lookup pf item Hw) as (e & He & _); [rewrite Hitems; by left|].
    apply (traverse_closed pf item rest e); [done..|].
    intros Hopen. apply Hopen. by rewrite (inv_nodes _ _ _ _ Hinv). }
  assert (∀ fuel pf acc p pf', run_inv n E pf acc → (pending pf < S fuel)%nat →
            PathFinder.traverse pf = Returns (p, pf') →
            ∃ acc', run_inv n E pf' acc' ∧ returned_ok n fuel pf' p
                    ∧ length acc' = (length acc + owed p)%nat) as Hnext.
  { intros fuel' pf acc p pf' Hinv Hfuel Hret.
    destruct (run_inv_step n E pf acc p pf' Hinv Hret) as (acc' & Hinv' & Hp).
    exists acc'. split; [done|]. destruct p as [|e|i]; simpl.
    - destruct Hp as (-> & ? & ->). split; [done|lia].
    - destruct Hp as (? & ? & ->). split; [split; [done|lia]|lia].
    - destruct Hp as (? & ? & ->). split; [split; [done|lia]|lia]. }
  induction fuel as [|fuel IH]; intros pf acc mst p Hinv Hp Hmst.
  - destruct p as [|e|i]; simpl in Hp; [|destruct Hp; lia..].
    exists pf, mst. destruct (Hdone pf acc mst Hinv Hp Hmst). by split_and!.
  - destruct p as [|e|i]; simpl in Hp.
    + exists pf, mst. destruct (Hdone pf acc mst Hinv Hp Hmst). by split_and!.
    + destruct Hp as [-> Hfuel].
      destruct (run_inv_progress n E pf acc Hinv Hconn) as (p' & pf' & Hret).
      destruct (Hnext fuel pf acc p' pf' Hinv Hfuel Hret) as (acc' & Hinv' & Hp' & Hlen).
      simpl. rewrite Hret. eapply IH; [done..|].
      intros HE. specialize (Hmst HE). simpl in Hmst. lia.
    + destruct Hp as [[e He] Hfuel].
      destruct (run_inv_progress n E pf acc Hinv Hconn) as (p' & pf' & Hret).
      destruct (Hnext fuel pf acc p' pf' Hinv Hfuel Hret) as (acc' & Hinv' & Hp' & Hlen).
      simpl. rewrite He, Hret. eapply IH; [done..|].
      intros HE. specialize (Hmst HE). simpl in Hmst.
      assert (is_sentinel e = false) as ->.
      { rewrite Forall_forall in HE. apply HE.
        apply vector_at_Some in He as [_ He]. rewrite (inv_edges _ _ _ _ Hinv) in He.
        by eapply list_elem_of_lookup_2. }
      simpl. rewrite length_app. simpl. lia.
Qed.

Lemma main_completes nodes triples fuel :
  1 ≤ nodes → triples ≠ [] →
  connected_graph (PathFinder.sort_edges (PathFinder.parse_input nodes triples)) →
  (length (PathFinder.all_weights
             (PathFinder.sort_edges (PathFinder.parse_input nodes triples))) ≤ fuel)%nat →
  ∃ pf mst, main fuel nodes triples = Returns (pf, mst)
            ∧ PathFinder.num_of_traversed_edges pf = nodes - 1
            ∧ PathFinder.traverse pf = Returns (PathFinder.nullptr, pf)
            ∧ (Forall (λ e, is_sentinel e = false)
                 (PathFinder.all_edges (PathFinder.parse_input nodes triples)) →
               Z.of_nat (length (SpanningTree.traversed_edges mst)) = nodes - 1).
Proof.
  intros Hn Hne Hconn Hfuel.
  set (pf0 := PathFinder.sort_edges (PathFinder.parse_input nodes triples)) in *.
  pose proof (run_inv_start nodes triples Hn Hne) as Hinv. fold pf0 in Hinv. simpl in Hinv.
  assert (∀ u v, 0 ≤ u < nodes → 0 ≤ v < nodes →
            joined (edge_pairs (PathFinder.all_edges pf0)) u v) as Hconn'.
  { intros u v Hu Hv. apply Hconn; by rewrite (inv_nodes _ _ _ _ Hinv). }
  destruct (run_inv_progress _ _ _ _ Hinv Hconn') as (p & pf1 & Hret).
  destruct (run_inv_step _ _ _ _ _ _ Hinv Hret) as (acc' & Hinv' & Hp).
  unfold main, select_all. fold pf0. rewrite Hret.
  apply (main_loop_completes nodes (PathFinder.all_edges pf0) fuel pf1 acc'); [done..| |].
  - pose proof (pending_le pf0).
    destruct p as [|e|i]; simpl.
    + by destruct Hp as (-> & ? & _).
    + destruct Hp as (? & ? & _). split; [done|lia].
    + destruct Hp as (? & ? & _). split; [done|lia].
  - intros _. destruct p as [|e|i]; simpl.
    + by destruct Hp as (_ & _ & ->).
    + by destruct Hp as (_ & _ & ->).
    + destruct Hp as (_ & _ & ->). simpl. lia.
Qed.

Lemma reachable_ok nodes triples pf :
  rtc traverse_step (PathFinder.sort_edges (PathFinder.parse_input nodes triples)) pf →
  state_ok pf ∧ PathFinder.num_of_nodes pf = nodes.
Proof.
  intros Hsteps.
  destruct (traverse_steps_preserve _ _ (state_ok_start nodes triples) Hsteps)
    as (Hok & _ & Hn & _).
  split; [done|]. rewrite Hn.
  by destruct (fresh_parse_input nodes triples) as (_ & _ & _ & ?).
Qed.

Lemma traverse_nullptr_inv pf pf' :
  state_ok pf → PathFinder.traverse pf = Returns (PathFinder.nullptr, pf') →
  pf' = pf ∧ PathFinder.num_of_traversed_edges pf = PathFinder.num_of_nodes pf - 1.
Proof.
  intros Hok Hret. pose proof (traverse_case_of pf Hok) as Hcase. rewrite Hret in Hcase.
  inversion Hcase as [| |Hclosed Hne| |]; simplify_eq.
  split; [done|]. unfold selection_open in Hclosed. lia.
Qed.

Lemma traverse_when_closed pf :
  state_ok pf → PathFinder.all_weights pf ≠ [] →
  PathFinder.num_of_traversed_edges pf = PathFinder.num_of_nodes pf - 1 →
  PathFinder.traverse pf = Returns (PathFinder.nullptr, pf).
Proof.
  intros [Hw _] Hne Hcount.
  destruct (PathFinder.all_weights pf) as [|item rest] eqn:Hitems; [done|].
  destruct (weights_ok_lookup pf item Hw) as (e & He & _); [rewrite Hitems; by left|].
  apply (traverse_closed pf item rest e); [done..|]. by intros [].
Qed.

Lemma traverse_leaves_entries pf p pf' :
  state_ok pf → PathFinder.traverse pf = Returns (p, pf') →
  PathFinder.num_of_traversed_edges pf' = PathFinder.num_of_nodes pf' - 1 →
  PathFinder.all_weights pf' ≠ [].
Proof.
  intros Hok Hret Hcount. pose proof (traverse_case_of pf Hok) as Hcase.
  rewrite Hret in Hcase.
  inversion Hcase as [| |Hclosed Hne
                      |pre item post e Hopen Hitems Hpre He Ht Hc
                      |pre item post e pf'' Hopen Hitems Hpre He Ht Hc Haug];
    simplify_eq.
  - done.
  - by destruct Hopen.
  - destruct (augment_components_spec
                (PathFinder.mark_traversed pf (source e) (destination e))
                (source e) (destination e)) as (pf2 & Hret2 & Hsame & _).
    { apply mark_traversed_sorted. by destruct Hok. }
    rewrite Haug in Hret2. simplify_eq. destruct Hsame as (-> & _). simpl.
    rewrite Hitems. by destruct pre.
Qed.

(** A connected graph of two nodes or more has an edge. *)
Lemma connected_graph_has_edge nodes triples :
  2 ≤ nodes →
  connected_graph (PathFinder.sort_edges (PathFinder.parse_input nodes triples)) →
  triples ≠ [].
Proof.
  intros Hn Hconn ->.
  assert (∀ u v, joined [] u v → u = v) as Hnil.
  { intros u v Huv. induction Huv as [x|x y z [Hxy|Hyx] _ IH]; [done|..];
      by apply elem_of_nil in Hxy || by apply elem_of_nil in Hyx. }
  specialize (Hconn 0 1). simpl in Hconn. by specialize (Hnil 0 1 (Hconn ltac:(lia) ltac:(lia))).
Qed.

(** The runs on a connected input graph that do complete: a call of
    [traverse] reports completion only with [num_of_nodes - 1] edges accepted,
    and then changes nothing; the call that follows the one bringing the
    counter to [num_of_nodes - 1] reports completion, as does every call made
    with the counter at this value and an entry in the weight index, so no
    edge is accepted any more; and when the graph has two nodes or more, or
    one node and an edge, [main] does come to this end, with the counter at
    [num_of_nodes - 1] - and with that many edges in the tree, provided no
    stored edge is the value (-1,-1,-1) that [main] reads as a rejection.
    The connected graph left out, one node and no edge, is the subject of
    [single_node_graph_flows_off_end]. *)
Lemma connected_run_completes (nodes : Z) (triples : list (Z * Z * Z)) :
  let pf0 := PathFinder.sort_edges (PathFinder.parse_input nodes triples) in
  connected_graph pf0 →
  (∀ pf pf', rtc traverse_step pf0 pf →
     PathFinder.traverse pf = Returns (PathFinder.nullptr, pf') →
     PathFinder.num_of_traversed_edges pf = nodes - 1 ∧ pf' = pf)
  ∧ (∀ pf p pf', rtc traverse_step pf0 pf →
       PathFinder.traverse pf = Returns (p, pf') →
       PathFinder.num_of_traversed_edges pf' = nodes - 1 →
       PathFinder.traverse pf' = Returns (PathFinder.nullptr, pf'))
  ∧ (∀ pf, rtc traverse_step pf0 pf → PathFinder.all_weights pf ≠ [] →
       PathFinder.num_of_traversed_edges pf = nodes - 1 →
       PathFinder.traverse pf = Returns (PathFinder.nullptr, pf))
  ∧ (2 ≤ nodes ∨ (nodes = 1 ∧ triples ≠ []) →
     ∀ fuel, (length (PathFinder.all_weights pf0) ≤ fuel)%nat →
       ∃ pf mst, main fuel nodes triples = Returns (pf, mst)
         ∧ PathFinder.num_of_traversed_edges pf = nodes - 1
         ∧ PathFinder.traverse pf = Returns (PathFinder.nullptr, pf)
         ∧ (Forall (λ e, is_sentinel e = false) (PathFinder.all_edges pf0) →
            Z.of_nat (length (SpanningTree.traversed_edges mst)) = nodes - 1)).
Proof.
  intros pf0 Hconn. split_and!.
  - intros pf pf' Hsteps Hret.
    destruct (reachable_ok nodes triples pf Hsteps) as [Hok Hn].
    destruct (traverse_nullptr_inv pf pf' Hok Hret) as [-> Hcount].
    split; [lia|done].
  - intros pf p pf' Hsteps Hret Hcount.
    destruct (reachable_ok nodes triples pf Hsteps) as [Hok Hn].
    assert (rtc traverse_step pf0 pf') as Hsteps'.
    { eapply rtc_r; [done|]. by exists p. }
    destruct (reachable_ok nodes triples pf' Hsteps') as [Hok' Hn'].
    apply traverse_when_closed; [done| |lia].
    apply (traverse_leaves_entries pf p pf' Hok Hret). lia.
  - intros pf Hsteps Hne Hcount.
    destruct (reachable_ok nodes triples pf Hsteps) as [Hok Hn].
    apply traverse_when_closed; [done..|lia].
  - intros Hsize fuel Hfuel. apply main_completes; [lia| |done..].
    destruct Hsize as [Hn|[_ Hne]]; [|done]. by apply (connected_graph_has_edge nodes).
Qed.

(** The chain of four nodes is connected and its run ends with three edges. *)
Lemma connected_run_completes_on_chain :
  connected_graph
    (PathFinder.sort_edges
       (PathFinder.parse_input 4 [(0,1,1); (1,2,2); (2,3,3); (0,3,4)]))
  ∧ ∃ pf mst, main 4 4 [(0,1,1); (1,2,2); (2,3,3); (0,3,4)] = Returns (pf, mst)
              ∧ PathFinder.num_of_traversed_edges pf = 4 - 1
              ∧ Z.of_nat (length (SpanningTree.traversed_edges mst)) = 4 - 1.
Proof.
  assert (connected_graph
            (PathFinder.sort_edges
               (PathFinder.parse_input 4 [(0,1,1); (1,2,2); (2,3,3); (0,3,4)]))) as Hconn.
  { assert (∀ u, 0 ≤ u < 4 → joined [(0,1); (1,2); (2,3); (0,3)] 0 u) as Hzero.
    { intros u Hu.
      assert (u = 0 ∨ u = 1 ∨ u = 2 ∨ u = 3) as [ ->|[ ->|[ ->| ->]]] by lia.
      - done.
      - apply rtsc_lr. rewrite !elem_of_cons. auto.
      - trans 1; apply rtsc_lr; rewrite !elem_of_cons; auto.
      - apply rtsc_lr. rewrite !elem_of_cons. auto 6. }
    intros u v Hu Hv. trans 0; [symmetry|]; by apply Hzero. }
  split; [exact Hconn|].
  destruct (connected_run_completes 4 [(0,1,1); (1,2,2); (2,3,3); (0,3,4)] Hconn)
    as (_ & _ & _ & Hmain).
  destruct (Hmain ltac:(left; lia) 4%nat ltac:(vm_compute; lia))
    as (pf & mst & Hret & Hcount & _ & Hlen).
  exists pf, mst. split; [exact Hret|]. split; [exact Hcount|].
  apply Hlen. vm_compute. repeat constructor.
Defined.

(** C1 on the program: the graph of one node and no edge is connected and its
    counter stands at [num_of_nodes - 1] from the start, yet the first call of
    [traverse] has no entry of the weight index to run the loop body on - the
    only place of the counter test - and reaches the end of the function
    without a [return]: completion is not reported and [main] gets no result.
    With an edge stored the same first call does report completion. *)
Theorem single_node_graph_flows_off_end (fuel : nat) :
  let pf0 := PathFinder.sort_edges (PathFinder.parse_input 1 []) in
  let pf1 := PathFinder.sort_edges (PathFinder.parse_input 1 [(0,0,3)]) in
  connected_graph pf0
  ∧ PathFinder.num_of_traversed_edges pf0 = PathFinder.num_of_nodes pf0 - 1
  ∧ PathFinder.traverse pf0 = Undefined FlowsOffEnd
  ∧ main fuel 1 [] = Undefined FlowsOffEnd
  ∧ PathFinder.traverse pf1 = Returns (PathFinder.nullptr, pf1).
Proof.
  intros pf0 pf1. split_and!; [|reflexivity..].
  intros u v Hu Hv. simpl in Hu, Hv.
  assert (u = 0) as -> by lia. assert (v = 0) as -> by lia. done.
Qed.

(** * Further properties of the code *)

(** ** [are_nodes_traversed] *)

Lemma foldl_two_flags (P Q : Z * Z → bool) (l : list (Z * Z)) (a b : bool) :
  foldl (λ '(x, y) p, (if P p then true else x, if Q p then true else y)) (a, b) l
  = (a || existsb P l, b || existsb Q l).
Proof.
  revert a b. induction l as [|p l IH]; intros a b; simpl.
  - by rewrite !orb_false_r.
  - rewrite IH. destruct (P p), (Q p), a, b; done.
Qed.

(** [are_nodes_traversed source destination] answers [true] exactly when
    some recorded pair starts at [source] and some recorded pair, possibly
    another one, ends at [destination]; it is therefore [true] whenever
    [is_edge_traversed] is, and it can be [true] for a pair that is not
    recorded. *)
Theorem are_nodes_traversed_two_pairs (pf : PathFinder.t) (source destination : Z) :
  (PathFinder.are_nodes_traversed pf source destination = true
   ↔ (∃ y, (source, y) ∈ PathFinder.traversed_edges pf)
     ∧ (∃ x, (x, destination) ∈ PathFinder.traversed_edges pf))
  ∧ (PathFinder.is_edge_traversed pf source destination = true →
     PathFinder.are_nodes_traversed pf source destination = true)
  ∧ (∀ y x, y ≠ destination → x ≠ source →
       PathFinder.traversed_edges pf = [(source, y); (x, destination)] →
       PathFinder.are_nodes_traversed pf source destination = true
       ∧ PathFinder.is_edge_traversed pf source destination = false).
Proof.
  assert (PathFinder.are_nodes_traversed pf source destination = true
          ↔ (∃ y, (source, y) ∈ PathFinder.traversed_edges pf)
            ∧ (∃ x, (x, destination) ∈ PathFinder.traversed_edges pf)) as Hiff.
  { unfold PathFinder.are_nodes_traversed.
    rewrite (foldl_two_flags (λ p, p.1 =? source) (λ p, p.2 =? destination)). simpl.
    rewrite andb_true_iff, !existsb_elem_of. split.
    - intros [([a b] & Hin1 & Ha) ([c d] & Hin2 & Hd)]. simpl in Ha, Hd.
      apply Z.eqb_eq in Ha, Hd. subst. eauto.
    - intros [(y & Hy) (x & Hx)]. split.
      + exists (source, y). split; [done|]. apply Z.eqb_refl.
      + exists (x, destination). split; [done|]. apply Z.eqb_refl. }
  split_and!; [done| |].
  - intros Hin%is_edge_traversed_elem_of. apply Hiff. eauto.
  - intros y x Hy Hx HT. split.
    + apply Hiff. rewrite HT. split; [exists y|exists x]; rewrite !elem_of_cons; auto.
    + apply not_true_is_false. intros Hin%is_edge_traversed_elem_of.
      rewrite HT in Hin. rewrite !elem_of_cons, elem_of_nil in Hin.
      destruct Hin as [[= ?]|[[= ?]|[]]]; done.
Qed.

(** Recorded (0,1) and (2,3): nodes 0 and 3 both count as traversed, the
    pair (0,3) is not recorded. *)
Lemma are_nodes_traversed_two_pairs_witness :
  let pf := PathFinder.mk [] [] [(0, 1); (2, 3)] 0 4 2 [0; 1; 2; 3] in
  PathFinder.are_nodes_traversed pf 0 3 = true
  ∧ PathFinder.is_edge_traversed pf 0 3 = false.
Proof.
  intros pf.
  destruct (are_nodes_traversed_two_pairs pf 0 3) as (_ & _ & Hweak).
  apply (Hweak 1 2); [lia|lia|reflexivity].
Defined.

(** ** What [parse_input] stores *)

Lemma all_edges_insert_new_edge pf s d w :
  PathFinder.all_edges (PathFinder.insert_new_edge pf s d w).1
  = if decide (mkEdge d s w ∈ PathFinder.all_edges pf)
    then PathFinder.all_edges pf
    else PathFinder.all_edges pf ++ [mkEdge s d w].
Proof.
  destruct (decide _) as [Hin|Hnotin].
  - by rewrite insert_new_edge_rejected.
  - by rewrite insert_new_edge_accepted.
Qed.

Lemma parse_fold_snoc pf triples s d w :
  foldl (λ pf '(s, d, w), (PathFinder.insert_new_edge pf s d w).1) pf (triples ++ [(s, d, w)])
  = (PathFinder.insert_new_edge
       (foldl (λ pf '(s, d, w), (PathFinder.insert_new_edge pf s d w).1) pf triples)
       s d w).1.
Proof. by rewrite foldl_app. Qed.

(** The edge list never holds an edge together with its reverse of the same
    weight: of [(s,d,w)] and [(d,s,w)] with [s <> d], whichever comes first
    in the input keeps the other one out. *)
Theorem loaded_edges_have_no_reverse (nodes : Z) (triples : list (Z * Z * Z)) (s d w : Z) :
  s ≠ d →
  mkEdge s d w ∈ PathFinder.all_edges (PathFinder.parse_input nodes triples) →
  mkEdge d s w ∉ PathFinder.all_edges (PathFinder.parse_input nodes triples).
Proof.
  intros Hsd. unfold PathFinder.parse_input.
  induction triples as [|[[a b] c] triples IH] using rev_ind; simpl.
  - intros Hin. by apply elem_of_nil in Hin.
  - rewrite parse_fold_snoc, all_edges_insert_new_edge.
    destruct (decide _) as [Hrev|Hrev]; [done|].
    rewrite !elem_of_app, !list_elem_of_singleton.
    intros [Hin|Heq] [Hin'|Heq']; simplify_eq; try done.
    by apply IH.
Qed.

Lemma loaded_edges_have_no_reverse_witness :
  mkEdge 1 0 5 ∉ PathFinder.all_edges (PathFinder.parse_input 3 [(0,1,5); (1,0,5); (1,2,7)]).
Proof.
  apply (loaded_edges_have_no_reverse 3 [(0,1,5); (1,0,5); (1,2,7)] 0 1 5); [lia|].
  vm_compute. by left.
Defined.

(** The edge list is the input with some triples left out: it keeps the order
    of the file and holds nothing that was not read. *)
Theorem loaded_edges_are_input_in_order (nodes : Z) (triples : list (Z * Z * Z)) :
  PathFinder.all_edges (PathFinder.parse_input nodes triples)
    `sublist_of` (λ '(s, d, w), mkEdge s d w) <$> triples.
Proof.
  unfold PathFinder.parse_input.
  induction triples as [|[[a b] c] triples IH] using rev_ind; simpl; [done|].
  rewrite parse_fold_snoc, all_edges_insert_new_edge, fmap_app. simpl.
  destruct (decide _) as [Hrev|Hrev].
  - by apply sublist_inserts_r.
  - by apply sublist_app.
Qed.

(** No connection of the input is lost by the refusals: every triple read
    is stored, or its reverse of the same weight is. *)
Theorem every_input_edge_is_kept_in_one_direction
    (nodes : Z) (triples : list (Z * Z * Z)) (s d w : Z) :
  (s, d, w) ∈ triples →
  mkEdge s d w ∈ PathFinder.all_edges (PathFinder.parse_input nodes triples)
  ∨ mkEdge d s w ∈ PathFinder.all_edges (PathFinder.parse_input nodes triples).
Proof.
  unfold PathFinder.parse_input.
  induction triples as [|[[a b] c] triples IH] using rev_ind; simpl.
  - intros Hin. by apply elem_of_nil in Hin.
  - rewrite parse_fold_snoc, all_edges_insert_new_edge.
    rewrite elem_of_app, list_elem_of_singleton.
    destruct (decide _) as [Hrev|Hrev].
    + intros [Hin|[= -> -> ->]]; [by apply IH|by right].
    + rewrite !elem_of_app, !list_elem_of_singleton.
      intros [Hin|[= -> -> ->]]; [|by left; right].
      destruct (IH Hin); [left|right]; by left.
Qed.

Lemma every_input_edge_is_kept_in_one_direction_witness :
  mkEdge 1 0 5 ∈ PathFinder.all_edges (PathFinder.parse_input 3 [(0,1,5); (1,0,5); (1,2,7)])
  ∨ mkEdge 0 1 5 ∈ PathFinder.all_edges (PathFinder.parse_input 3 [(0,1,5); (1,0,5); (1,2,7)]).
Proof.
  apply (every_input_edge_is_kept_in_one_direction 3 [(0,1,5); (1,0,5); (1,2,7)] 1 0 5).
  rewrite !elem_of_cons. auto.
Defined.

(** ** [sort_edges] and [check_cycle] *)

(** Sorting a sorted index changes nothing, and sorting never touches
    anything but the weight index. *)
Theorem sort_edges_idempotent (pf : PathFinder.t) :
  PathFinder.sort_edges (PathFinder.sort_edges pf) = PathFinder.sort_edges pf
  ∧ PathFinder.all_edges (PathFinder.sort_edges pf) = PathFinder.all_edges pf
  ∧ PathFinder.traversed_edges (PathFinder.sort_edges pf) = PathFinder.traversed_edges pf
  ∧ PathFinder.num_of_traversed_edges (PathFinder.sort_edges pf)
    = PathFinder.num_of_traversed_edges pf.
Proof.
  split_and!; [|done..].
  unfold PathFinder.sort_edges, PathFinder.set_all_weights. simpl. f_equal.
  symmetry. apply sort_pairs_unique; [done|apply sort_pairs_sorted].
Qed.

(** The answer of [check_cycle] does not depend on the orientation of the
    candidate edge, although the pairs are stored with an orientation. *)
Theorem check_cycle_symmetric (pf : PathFinder.t) (source destination : Z) :
  PathFinder.check_cycle pf source destination
  = PathFinder.check_cycle pf destination source.
Proof.
  apply eq_true_iff_eq. rewrite !check_cycle_true_iff.
  split; intros (k & Hk & [[H1 H2]|[H1 H2]]); exists k; (split; [done|]); auto.
Qed.

(** [check_cycle] sees no neighbour outside [0, num_of_nodes): a pair of
    recorded pairs that meet in a node id below 0 or from [num_of_nodes] on
    does not count, so with a node count of 0 or less the answer is always
    [false]. *)
Theorem check_cycle_ignores_out_of_range_nodes (pf : PathFinder.t) (source destination : Z) :
  (∀ k, 0 ≤ k < PathFinder.num_of_nodes pf →
        ¬ ((source, k) ∈ PathFinder.traversed_edges pf
           ∧ (destination, k) ∈ PathFinder.traversed_edges pf)
        ∧ ¬ ((k, source) ∈ PathFinder.traversed_edges pf
             ∧ (k, destination) ∈ PathFinder.traversed_edges pf)) →
  PathFinder.check_cycle pf source destination = false.
Proof.
  intros Hnone. apply not_true_is_false.
  intros (k & Hk & Hcase)%check_cycle_true_iff.
  destruct (Hnone k Hk) as [H1 H2]. tauto.
Qed.

(** Nodes 0 and 1 both reach node 7, but the graph is declared with 4
    nodes: the common neighbour is not seen. *)
Lemma check_cycle_ignores_out_of_range_nodes_witness :
  PathFinder.check_cycle (PathFinder.mk [] [] [(0, 7); (1, 7)] 0 4 2 [0; 1; 7]) 0 1 = false.
Proof.
  apply check_cycle_ignores_out_of_range_nodes. simpl.
  intros k Hk. rewrite !elem_of_cons, !elem_of_nil.
  split; intros [[?|[?|[]]] [?|[?|[]]]]; simplify_eq; lia.
Defined.


(** ** The set of traversed nodes *)

Lemma elem_of_set_insert_Z x y (l : list Z) :
  y ∈ set_insert Z.ltb x l ↔ y = x ∨ y ∈ l.
Proof.
  induction l as [|a l IH]; simpl.
  - rewrite list_elem_of_singleton, elem_of_nil. tauto.
  - destruct (Z.ltb_spec x a); [by rewrite elem_of_cons|].
    destruct (Z.ltb_spec a x).
    + rewrite !elem_of_cons, IH. tauto.
    + assert (x = a) as -> by lia. rewrite elem_of_cons. tauto.
Qed.

Lemma set_insert_sorted_Z x (l : list Z) :
  StronglySorted Z.lt l → StronglySorted Z.lt (set_insert Z.ltb x l).
Proof.
  induction 1 as [|a l Hl IH Ha]; simpl.
  - repeat constructor.
  - destruct (Z.ltb_spec x a).
    + constructor; [by constructor|]. constructor; [done|].
      eapply Forall_impl; [exact Ha|]. intros z Hz. simpl in *. lia.
    + destruct (Z.ltb_spec a x); [|by constructor].
      constructor; [done|]. apply Forall_forall. intros z Hz.
      apply elem_of_set_insert_Z in Hz as [ ->|Hz]; [done|].
      rewrite Forall_forall in Ha. by apply Ha.
Qed.

Lemma insert_traversed_node_nodes pf x y :
  y ∈ PathFinder.traversed_nodes (PathFinder.insert_traversed_node pf x)
  ↔ y = x ∨ y ∈ PathFinder.traversed_nodes pf.
Proof. apply elem_of_set_insert_Z. Qed.

Lemma augment_body_nodes s d e pf :
  StronglySorted Z.lt (PathFinder.traversed_nodes pf) →
  s ∈ PathFinder.traversed_nodes pf → d ∈ PathFinder.traversed_nodes pf →
  StronglySorted Z.lt (PathFinder.traversed_nodes (PathFinder.augment_body s d e pf))
  ∧ ∀ x, x ∈ PathFinder.traversed_nodes (PathFinder.augment_body s d e pf)
         ↔ x ∈ PathFinder.traversed_nodes pf.
Proof.
  intros Hsorted Hs Hd. unfold PathFinder.augment_body.
  destruct ((e.2 =? s) && negb (e.1 =? d)), ((e.1 =? d) && negb (e.2 =? s)); simpl;
    (split; [repeat apply set_insert_sorted_Z; done|]);
    intros x; rewrite ?elem_of_set_insert_Z; intuition congruence.
Qed.

Lemma augment_loop_nodes fuel s d cur pf pf' :
  StronglySorted Z.lt (PathFinder.traversed_nodes pf) →
  s ∈ PathFinder.traversed_nodes pf → d ∈ PathFinder.traversed_nodes pf →
  PathFinder.augment_loop fuel s d cur pf = Some pf' →
  StronglySorted Z.lt (PathFinder.traversed_nodes pf')
  ∧ ∀ x, x ∈ PathFinder.traversed_nodes pf' ↔ x ∈ PathFinder.traversed_nodes pf.
Proof.
  revert cur pf. induction fuel as [|fuel IH]; intros [e|] pf Hsorted Hs Hd; simpl; try done.
  - by intros [= ->].
  - intros Hloop.
    destruct (augment_body_nodes s d e pf Hsorted Hs Hd) as [Hsorted1 Hin1].
    destruct (IH _ _ Hsorted1 (proj2 (Hin1 s) Hs) (proj2 (Hin1 d) Hd) Hloop) as [Hsorted2 Hin2].
    split; [done|]. intros x. by rewrite Hin2, Hin1.
  - by intros [= ->].
Qed.

Lemma accept_nodes pf s d pf' :
  StronglySorted Z.lt (PathFinder.traversed_nodes pf) →
  PathFinder.augment_components (PathFinder.mark_traversed pf s d) s d = Returns pf' →
  StronglySorted Z.lt (PathFinder.traversed_nodes pf')
  ∧ ∀ x, x ∈ PathFinder.traversed_nodes pf'
         ↔ x = s ∨ x = d ∨ x ∈ PathFinder.traversed_nodes pf.
Proof.
  intros Hsorted. unfold PathFinder.augment_components.
  destruct (PathFinder.augment_loop _ _ _ _ _) as [pf2|] eqn:Hloop; [|done].
  intros [= ->].
  apply augment_loop_nodes in Hloop as [Hsorted' Hin'].
  - split; [done|]. intros x. rewrite Hin'. simpl.
    rewrite !elem_of_set_insert_Z. tauto.
  - simpl. by do 2 apply set_insert_sorted_Z.
  - simpl. rewrite !elem_of_set_insert_Z. auto.
  - simpl. rewrite !elem_of_set_insert_Z. auto.
Qed.

(** ** Runs on any graph *)

Lemma is_edge_traversed_false_not_elem pf a b :
  PathFinder.is_edge_traversed pf a b = false → (a, b) ∉ PathFinder.traversed_edges pf.
Proof. intros Hf Hin%is_edge_traversed_elem_of. congruence. Qed.

Lemma sel_inv_start nodes triples :
  let pf0 := PathFinder.sort_edges (PathFinder.parse_input nodes triples) in
  sel_inv (PathFinder.all_weights pf0) (PathFinder.all_edges pf0) pf0 [].
Proof.
  intros pf0. destruct (fresh_parse_input nodes triples) as (HT & HN & Hc & _).
  split.
  - apply state_ok_start.
  - done.
  - done.
  - exact Hc.
  - change (∀ a b, (a, b) ∈ PathFinder.traversed_edges
                              (PathFinder.parse_input nodes triples) → joined [] a b).
    rewrite HT. intros a b Hab. by apply elem_of_nil in Hab.
  - intros p Hp. by apply elem_of_nil in Hp.
  - constructor.
  - intros p Hp. by apply elem_of_nil in Hp.
  - done.
  - change (StronglySorted Z.lt (PathFinder.traversed_nodes
                                   (PathFinder.parse_input nodes triples))).
    rewrite HN. constructor.
  - intros x.
    change (x ∈ PathFinder.traversed_nodes (PathFinder.parse_input nodes triples)
            ↔ ∃ p : Z * Z, p ∈ [] ∧ (x = p.1 ∨ x = p.2)).
    rewrite HN. split; [by intros ?%elem_of_nil|]. by intros (p & ?%elem_of_nil & _).
Qed.

Lemma sel_inv_step W0 E pf acc p pf' :
  sel_inv W0 E pf acc → PathFinder.traverse pf = Returns (p, pf') →
  match p with
  | PathFinder.nullptr => pf' = pf
  | PathFinder.new_Edge e =>
      e = mkEdge (-1) (-1) (-1) ∧ sel_inv W0 E pf' acc ∧ (pending pf' < pending pf)%nat
  | PathFinder.elem_ptr i =>
      ∃ e, vector_at E i = Some e
           ∧ sel_inv W0 E pf' ((source e, destination e) :: acc)
           ∧ (pending pf' < pending pf)%nat
  end.
Proof.
  intros Hinv Hret.
  destruct (traverse_preserves pf p pf' (sel_ok _ _ _ _ Hinv) Hret)
    as (Hok' & Hedges' & Hnodes' & Hsub' & Hmono').
  pose proof (traverse_case_of pf (sel_ok _ _ _ _ Hinv)) as Hcase.
  rewrite Hret in Hcase.
  inversion Hcase as [| |Hclosed Hne
                      |pre item post e Hopen Hitems Hpre He Ht Hc
                      |pre item post e pf'' Hopen Hitems Hpre He Ht Hc Haug];
    simplify_eq.
  - done.
  - (* rejection *)
    assert (skips pf item = false) as Hitem by (unfold skips; by rewrite He).
    split; [done|]. split; [split|].
    + done.
    + apply (sel_edges _ _ _ _ Hinv).
    + etrans; [exact Hsub'|apply (sel_index _ _ _ _ Hinv)].
    + apply (sel_count _ _ _ _ Hinv).
    + apply (sel_pairs _ _ _ _ Hinv).
    + apply (sel_recorded _ _ _ _ Hinv).
    + apply (sel_nodup _ _ _ _ Hinv).
    + apply (sel_stored _ _ _ _ Hinv).
    + intros item0 HW0 Hgone. simpl in Hgone.
      destruct (decide (item0 ∈ PathFinder.all_weights pf)) as [Hin|Hnotin].
      * rewrite Hitems, elem_of_app, elem_of_cons in Hin.
        rewrite elem_of_app in Hgone.
        destruct Hin as [?|[ ->|?]]; [tauto| |tauto].
        exists e. rewrite <- (sel_edges _ _ _ _ Hinv). split; [done|].
        eapply check_cycle_joined; [apply (sel_pairs _ _ _ _ Hinv)|done].
      * by apply (sel_dropped _ _ _ _ Hinv).
    + apply (sel_nodes_sorted _ _ _ _ Hinv).
    + apply (sel_nodes _ _ _ _ Hinv).
    + unfold pending. simpl. rewrite Hitems.
      apply filter_length_middle. by rewrite Hitem.
  - (* acceptance *)
    destruct (augment_components_spec
                (PathFinder.mark_traversed pf (source e) (destination e))
                (source e) (destination e)) as (pf2 & Hret2 & Hsame & _ & Hin2).
    { apply mark_traversed_sorted. by destruct (sel_ok _ _ _ _ Hinv). }
    rewrite Haug in Hret2. simplify_eq.
    destruct Hsame as (Hsw & Hse & _ & Hsn & Hsc). simpl in Hsw, Hse, Hsn, Hsc.
    destruct (accept_nodes pf (source e) (destination e) pf2
                (sel_nodes_sorted _ _ _ _ Hinv) Haug) as [Hnsorted Hnin].
    pose proof (sel_edges _ _ _ _ Hinv) as HE.
    set (s := source e) in *. set (d := destination e) in *.
    assert ((s, d) ∈ PathFinder.traversed_edges pf2) as Hsd.
    { apply Hin2. left. apply elem_of_mark_traversed. by left. }
    assert ((s, d) ∉ PathFinder.traversed_edges pf) as Hfresh.
    { by apply is_edge_traversed_false_not_elem. }
    exists e. split; [by rewrite <- HE|]. split; [split|].
    + done.
    + by rewrite Hse.
    + rewrite Hsw. apply (sel_index _ _ _ _ Hinv).
    + rewrite Hsc, (sel_count _ _ _ _ Hinv). simpl length. lia.
    + assert (∀ a b, (a, b) ∈ PathFinder.traversed_edges
                        (PathFinder.mark_traversed pf s d) → joined ((s, d) :: acc) a b)
        as Hmark.
      { intros a b [[= -> ->]|Hab]%elem_of_mark_traversed.
        - apply rtsc_lr. by left.
        - by apply joined_cons, (sel_pairs _ _ _ _ Hinv). }
      assert (joined ((s, d) :: acc) s d) as Hjsd by (apply rtsc_lr; by left).
      intros a b [Hab|([x y] & Hxy & Hc')]%Hin2; [by apply Hmark|].
      apply elem_of_contrib in Hc' as [(Hy & _ & [= -> ->])|(Hx & _ & [= -> ->])];
        simpl in *; subst.
      * trans s; [by apply Hmark|done].
      * trans d; [done|by apply Hmark].
    + intros q [ ->|Hq]%elem_of_cons; [done|].
      apply Hmono'. by apply (sel_recorded _ _ _ _ Hinv).
    + constructor; [|apply (sel_nodup _ _ _ _ Hinv)].
      intros Hin. by apply Hfresh, (sel_recorded _ _ _ _ Hinv).
    + intros q [ ->|Hq]%elem_of_cons; [|by apply (sel_stored _ _ _ _ Hinv)].
      apply list_elem_of_fmap. exists e. split; [done|].
      apply vector_at_Some in He as [_ He]. rewrite <- HE.
      by eapply list_elem_of_lookup_2.
    + intros item0 HW0 Hgone. rewrite Hsw in Hgone.
      destruct (sel_dropped _ _ _ _ Hinv item0 HW0 Hgone) as (e0 & He0 & Hj).
      exists e0. split; [done|]. by apply joined_cons.
    + done.
    + intros x. rewrite Hnin, (sel_nodes _ _ _ _ Hinv x). split.
      * intros [ ->|[ ->|(q & Hq & Hx)]].
        -- exists (s, d). split; [by left|by left].
        -- exists (s, d). split; [by left|by right].
        -- exists q. split; [by right|done].
      * intros (q & [ ->|Hq]%elem_of_cons & Hx); simpl in Hx.
        -- destruct Hx; auto.
        -- right; right. by exists q.
    + unfold pending. rewrite Hsw. apply filter_length_lt with item.
      * intros y Hy. apply negb_true_iff in Hy. apply negb_true_iff.
        destruct (skips pf y) eqn:Hskip; [|done].
        rewrite (skips_mono pf pf2 y) in Hy; done.
      * rewrite Hitems, elem_of_app, elem_of_cons. auto.
      * unfold skips. rewrite He. unfold s, d in Ht. by rewrite Ht.
      * rewrite (proj2 (skips_elem_of pf2 item e ltac:(by rewrite Hse))); done.
Qed.

Lemma accepting_run_inv pf0 acc pf :
  sel_inv (PathFinder.all_weights pf0) (PathFinder.all_edges pf0) pf0 [] →
  accepting_run pf0 acc pf →
  sel_inv (PathFinder.all_weights pf0) (PathFinder.all_edges pf0) pf acc.
Proof.
  intros Hstart. induction 1 as [|acc pf pf' _ IH Hret|acc pf e pf' _ IH Hret
                                 |acc pf i e pf' _ IH Hret He]; [done|..].
  - by rewrite (sel_inv_step _ _ _ _ _ _ IH Hret).
  - by destruct (sel_inv_step _ _ _ _ _ _ IH Hret) as (_ & ? & _).
  - destruct (sel_inv_step _ _ _ _ _ _ IH Hret) as (e' & He' & Hinv' & _).
    rewrite (sel_edges _ _ _ _ IH) in He. by simplify_eq.
Qed.

(** What one returning call does to the counter. *)
Lemma traverse_counter pf p pf' :
  state_ok pf → PathFinder.traverse pf = Returns (p, pf') →
  match p with
  | PathFinder.elem_ptr _ =>
      selection_open pf
      ∧ PathFinder.num_of_traversed_edges pf' = PathFinder.num_of_traversed_edges pf + 1
  | _ => PathFinder.num_of_traversed_edges pf' = PathFinder.num_of_traversed_edges pf
  end.
Proof.
  intros Hok Hret. pose proof (traverse_case_of pf Hok) as Hcase. rewrite Hret in Hcase.
  inversion Hcase as [| |Hclosed Hne
                      |pre item post e Hopen Hitems Hpre He Ht Hc
                      |pre item post e pf'' Hopen Hitems Hpre He Ht Hc Haug];
    simplify_eq; [done..|].
  destruct (augment_components_spec
              (PathFinder.mark_traversed pf (source e) (destination e))
              (source e) (destination e)) as (pf2 & Hret2 & Hsame & _).
  { apply mark_traversed_sorted. by destruct Hok. }
  rewrite Haug in Hret2. simplify_eq. by destruct Hsame as (_ & _ & _ & _ & ->).
Qed.

(** The first step of the run on the chain of four nodes. *)
Lemma chain_first_step :
  ∃ pf1, accepting_run
           (PathFinder.sort_edges
              (PathFinder.parse_input 4 [(0,1,1); (1,2,2); (2,3,3); (0,3,4)]))
           [(0, 1)] pf1
         ∧ PathFinder.traversed_edges pf1 = [(0, 1)]
         ∧ PathFinder.traversed_nodes pf1 = [0; 1]
         ∧ PathFinder.num_of_traversed_edges pf1 = 1.
Proof.
  eexists. split.
  - eapply (run_accept _ [] _ 0 (mkEdge 0 1 1)); [apply run_start| |reflexivity].
    vm_compute. reflexivity.
  - split_and!; reflexivity.
Defined.

(** Every recorded pair joins two nodes that the accepted edges connect:
    the augmentation records no connection that is not there. *)
Theorem recorded_pairs_are_connections (nodes : Z) (triples : list (Z * Z * Z))
    (acc : list (Z * Z)) (pf : PathFinder.t) :
  accepting_run (PathFinder.sort_edges (PathFinder.parse_input nodes triples)) acc pf →
  ∀ a b, (a, b) ∈ PathFinder.traversed_edges pf → joined acc a b.
Proof.
  intros Hrun. apply (sel_pairs _ _ _ _ (accepting_run_inv _ _ _ (sel_inv_start _ _) Hrun)).
Qed.

Lemma recorded_pairs_are_connections_witness :
  ∃ pf1, PathFinder.traversed_edges pf1 = [(0, 1)] ∧ joined [(0, 1)] 0 1.
Proof.
  destruct chain_first_step as (pf1 & Hrun & HT & _).
  exists pf1. split; [exact HT|].
  apply (recorded_pairs_are_connections _ _ _ _ Hrun). rewrite HT. by left.
Defined.

(** An entry leaves the weight index only when the end points of its edge
    are already connected by accepted edges: no edge that would join two
    components is ever thrown away. *)
Theorem erased_entries_close_cycles (nodes : Z) (triples : list (Z * Z * Z))
    (acc : list (Z * Z)) (pf : PathFinder.t) (item : Z * Z) :
  let pf0 := PathFinder.sort_edges (PathFinder.parse_input nodes triples) in
  accepting_run pf0 acc pf →
  item ∈ PathFinder.all_weights pf0 → item ∉ PathFinder.all_weights pf →
  ∃ e, vector_at (PathFinder.all_edges pf0) item.2 = Some e
       ∧ joined acc (source e) (destination e).
Proof.
  intros pf0 Hrun.
  apply (sel_dropped _ _ _ _ (accepting_run_inv _ _ _ (sel_inv_start _ _) Hrun)).
Qed.

(** No pair is accepted twice; each accepted pair is the pair of a stored
    edge and is recorded; the counter is the number of accepted pairs. *)
Theorem accepted_pairs_are_distinct (nodes : Z) (triples : list (Z * Z * Z))
    (acc : list (Z * Z)) (pf : PathFinder.t) :
  let pf0 := PathFinder.sort_edges (PathFinder.parse_input nodes triples) in
  accepting_run pf0 acc pf →
  NoDup acc
  ∧ (∀ p, p ∈ acc → p ∈ PathFinder.traversed_edges pf
                    ∧ p ∈ edge_pairs (PathFinder.all_edges pf0))
  ∧ PathFinder.num_of_traversed_edges pf = Z.of_nat (length acc).
Proof.
  intros pf0 Hrun.
  pose proof (accepting_run_inv _ _ _ (sel_inv_start _ _) Hrun) as Hinv.
  split_and!.
  - apply (sel_nodup _ _ _ _ Hinv).
  - intros p Hp. split; [by apply (sel_recorded _ _ _ _ Hinv)|by apply (sel_stored _ _ _ _ Hinv)].
  - apply (sel_count _ _ _ _ Hinv).
Qed.

Lemma accepted_pairs_are_distinct_witness :
  ∃ pf1, NoDup [(0, 1)] ∧ PathFinder.num_of_traversed_edges pf1 = Z.of_nat 1.
Proof.
  destruct chain_first_step as (pf1 & Hrun & _).
  exists pf1. destruct (accepted_pairs_are_distinct _ _ _ _ Hrun) as (Hnd & _ & Hcount).
  split; [exact Hnd|exact Hcount].
Defined.

(** The set of traversed nodes holds exactly the end points of the accepted
    edges. *)
Theorem traversed_nodes_are_end_points (nodes : Z) (triples : list (Z * Z * Z))
    (acc : list (Z * Z)) (pf : PathFinder.t) :
  accepting_run (PathFinder.sort_edges (PathFinder.parse_input nodes triples)) acc pf →
  StronglySorted Z.lt (PathFinder.traversed_nodes pf)
  ∧ ∀ x, x ∈ PathFinder.traversed_nodes pf ↔ ∃ p, p ∈ acc ∧ (x = p.1 ∨ x = p.2).
Proof.
  intros Hrun. pose proof (accepting_run_inv _ _ _ (sel_inv_start _ _) Hrun) as Hinv.
  split; [apply (sel_nodes_sorted _ _ _ _ Hinv)|apply (sel_nodes _ _ _ _ Hinv)].
Qed.

Lemma traversed_nodes_are_end_points_witness :
  ∃ pf1, PathFinder.traversed_nodes pf1 = [0; 1]
         ∧ (1 ∈ PathFinder.traversed_nodes pf1 ↔ ∃ p, p ∈ [(0, 1)] ∧ (1 = p.1 ∨ 1 = p.2)).
Proof.
  destruct chain_first_step as (pf1 & Hrun & _ & HN & _).
  exists pf1. split; [exact HN|].
  exact (proj2 (traversed_nodes_are_end_points _ _ _ _ Hrun) 1).
Defined.

(** With a node count of at least 1 the counter stays between 0 and
    [num_of_nodes - 1]: an edge is accepted only while the counter differs
    from [num_of_nodes - 1]. *)
Theorem counter_stays_below_node_count (nodes : Z) (triples : list (Z * Z * Z))
    (acc : list (Z * Z)) (pf : PathFinder.t) :
  1 ≤ nodes →
  accepting_run (PathFinder.sort_edges (PathFinder.parse_input nodes triples)) acc pf →
  0 ≤ PathFinder.num_of_traversed_edges pf ≤ nodes - 1
  ∧ PathFinder.get_node_size pf = nodes.
Proof.
  intros Hn Hrun.
  assert (state_ok pf ∧ PathFinder.num_of_nodes pf = nodes
          ∧ 0 ≤ PathFinder.num_of_traversed_edges pf ≤ nodes - 1) as (_ & ? & ?); [|done].
  induction Hrun as [|acc pf pf' _ IH Hret|acc pf e pf' _ IH Hret
                     |acc pf i e pf' _ IH Hret He].
  - split; [apply state_ok_start|].
    destruct (fresh_parse_input nodes triples) as (_ & _ & Hc & Hnodes).
    split; [exact Hnodes|]. change (PathFinder.num_of_traversed_edges
                                     (PathFinder.sort_edges (PathFinder.parse_input nodes triples)))
      with (PathFinder.num_of_traversed_edges (PathFinder.parse_input nodes triples)).
    lia.
  - destruct IH as (Hok & Hnodes & Hc).
    destruct (traverse_preserves _ _ _ Hok Hret) as (Hok' & _ & Hn' & _).
    pose proof (traverse_counter _ _ _ Hok Hret) as Hcnt. simpl in Hcnt.
    split_and!; [done|lia|lia|lia].
  - destruct IH as (Hok & Hnodes & Hc).
    destruct (traverse_preserves _ _ _ Hok Hret) as (Hok' & _ & Hn' & _).
    pose proof (traverse_counter _ _ _ Hok Hret) as Hcnt. simpl in Hcnt.
    split_and!; [done|lia|lia|lia].
  - destruct IH as (Hok & Hnodes & Hc).
    destruct (traverse_preserves _ _ _ Hok Hret) as (Hok' & _ & Hn' & _).
    destruct (traverse_counter _ _ _ Hok Hret) as [Hopen Hcnt].
    unfold selection_open in Hopen. split_and!; [done|lia|lia|lia].
Qed.

Lemma counter_stays_below_node_count_witness :
  ∃ pf1, PathFinder.num_of_traversed_edges pf1 = 1
         ∧ 0 ≤ PathFinder.num_of_traversed_edges pf1 ≤ 4 - 1.
Proof.
  destruct chain_first_step as (pf1 & Hrun & _ & _ & Hc).
  exists pf1. split; [exact Hc|].
  apply (counter_stays_below_node_count 4 _ _ _ ltac:(lia) Hrun).
Defined.

(** A run with a rejection: four nodes, the edge (1,2) comes after (0,1)
    and (0,2). *)
Lemma rejecting_run :
  ∃ pf3, accepting_run
           (PathFinder.sort_edges
              (PathFinder.parse_input 4 [(0,1,1); (0,2,2); (1,2,3); (2,3,4)]))
           [(0, 2); (0, 1)] pf3
         ∧ PathFinder.all_weights pf3 = [(1, 0); (2, 1); (4, 3)].
Proof.
  eexists. split.
  - eapply run_reject;
      [eapply (run_accept _ [(0, 1)] _ 1 (mkEdge 0 2 2));
         [eapply (run_accept _ [] _ 0 (mkEdge 0 1 1));
            [apply run_start|vm_compute; reflexivity|reflexivity]
         |vm_compute; reflexivity|reflexivity]
      |vm_compute; reflexivity].
  - reflexivity.
Defined.

Lemma erased_entries_close_cycles_witness :
  ∃ e, vector_at [mkEdge 0 1 1; mkEdge 0 2 2; mkEdge 1 2 3; mkEdge 2 3 4] 2 = Some e
       ∧ joined [(0, 2); (0, 1)] (source e) (destination e).
Proof.
  destruct rejecting_run as (pf3 & Hrun & HW).
  apply (erased_entries_close_cycles 4 [(0,1,1); (0,2,2); (1,2,3); (2,3,4)] _ pf3 (3, 2) Hrun).
  - change ((3, 2) ∈ [(1, 0); (2, 1); (3, 2); (4, 3)]). rewrite !elem_of_cons. auto.
  - rewrite HW. rewrite !elem_of_cons, elem_of_nil. intros [[=]|[[=]|[[=]|[]]]].
Defined.

(** ** The driver loop on any graph *)

Lemma edge_pairs_snoc es e :
  edge_pairs (es ++ [e]) = edge_pairs es ++ [(source e, destination e)].
Proof. unfold edge_pairs. by rewrite fmap_app. Qed.

Lemma is_sentinel_rejection_value : is_sentinel (mkEdge (-1) (-1) (-1)) = true.
Proof. reflexivity. Qed.

Lemma tree_ok_step E mst handed e :
  e ∈ E → tree_ok E mst handed →
  tree_ok E (if negb (is_sentinel e) then SpanningTree.add_edge mst e else mst)
          ((source e, destination e) :: handed).
Proof.
  intros He (Hall & Hsub & Heq). unfold tree_ok. rewrite reverse_cons.
  destruct (is_sentinel e) eqn:Hsent; simpl.
  - split_and!; [done|by apply sublist_inserts_r|].
    intros HE. rewrite Forall_forall in HE. specialize (HE e He). congruence.
  - split_and!.
    + apply Forall_app. split; [done|]. by repeat constructor.
    + rewrite edge_pairs_snoc. by apply sublist_app.
    + intros HE. by rewrite edge_pairs_snoc, (Heq HE).
Qed.

Lemma main_loop_general W0 E fuel pf acc mst p handed :
  sel_inv W0 E pf acc → held E acc p handed → tree_ok E mst handed →
  match main_loop fuel pf mst p with
  | Returns (pf', mst') => ∃ acc', sel_inv W0 E pf' acc' ∧ tree_ok E mst' acc'
  | Undefined FlowsOffEnd => True
  | Undefined OutOfRange => False
  | OutOfFuel => (fuel ≤ pending pf)%nat
  end.
Proof.
  revert pf acc mst p handed.
  induction fuel as [|fuel IH]; intros pf acc mst p handed Hinv Hheld Htree.
  { destruct p as [|e|i]; simpl; [|lia..].
    simpl in Hheld. subst handed. by exists acc. }
  assert (∀ mst', tree_ok E mst' acc →
            match
              match PathFinder.traverse pf with
              | Returns (p, pf') => main_loop fuel pf' mst' p
              | Undefined why => Undefined why
              | OutOfFuel => OutOfFuel
              end
            with
            | Returns (pf', mst'') => ∃ acc', sel_inv W0 E pf' acc' ∧ tree_ok E mst'' acc'
            | Undefined FlowsOffEnd => True
            | Undefined OutOfRange => False
            | OutOfFuel => (S fuel ≤ pending pf)%nat
            end) as Hcall.
  { intros mst' Htree'.
    pose proof (traverse_in_bounds pf (sel_ok _ _ _ _ Hinv)) as Hb.
    pose proof (traverse_not_out_of_fuel pf (sel_ok _ _ _ _ Hinv)) as Hf.
    destruct (PathFinder.traverse pf) as [[p' pf']|[]|] eqn:Hret; [|done..].
    pose proof (sel_inv_step _ _ _ _ _ _ Hinv Hret) as Hstep.
    destruct p' as [|e'|i'].
    - subst pf'. destruct fuel; simpl; by exists acc.
    - destruct Hstep as (-> & Hinv' & Hlt).
      specialize (IH pf' acc mst' (PathFinder.new_Edge (mkEdge (-1) (-1) (-1))) acc
                    Hinv' (conj eq_refl eq_refl) Htree').
      destruct (main_loop _ _ _ _) as [[??]|[]|]; try done. lia.
    - destruct Hstep as (e' & He' & Hinv' & Hlt).
      specialize (IH pf' _ mst' (PathFinder.elem_ptr i') acc Hinv'
                    (ex_intro _ e' (conj He' eq_refl)) Htree').
      destruct (main_loop _ _ _ _) as [[??]|[]|]; try done. lia. }
  destruct p as [|e|i]; simpl.
  - simpl in Hheld. subst handed. by exists acc.
  - destruct Hheld as [-> ->]. simpl. by apply Hcall.
  - destruct Hheld as (e & He & ->).
    rewrite (sel_edges _ _ _ _ Hinv), He. apply Hcall.
    apply tree_ok_step; [|done].
    apply vector_at_Some in He as [_ He]. by eapply list_elem_of_lookup_2.
Qed.

Lemma main_general nodes triples fuel :
  let pf0 := PathFinder.sort_edges (PathFinder.parse_input nodes triples) in
  match main fuel nodes triples with
  | Returns (pf, mst) =>
      ∃ acc, sel_inv (PathFinder.all_weights pf0) (PathFinder.all_edges pf0) pf acc
             ∧ tree_ok (PathFinder.all_edges pf0) mst acc
  | Undefined FlowsOffEnd => True
  | Undefined OutOfRange => False
  | OutOfFuel => (fuel < length (PathFinder.all_weights pf0))%nat
  end.
Proof.
  intros pf0. pose proof (sel_inv_start nodes triples) as Hinv. fold pf0 in Hinv.
  simpl in Hinv. unfold main, select_all. fold pf0.
  pose proof (traverse_in_bounds pf0 (sel_ok _ _ _ _ Hinv)) as Hb.
  pose proof (traverse_not_out_of_fuel pf0 (sel_ok _ _ _ _ Hinv)) as Hf.
  pose proof (pending_le pf0) as Hle.
  assert (tree_ok (PathFinder.all_edges pf0) SpanningTree.create []) as Htree.
  { split_and!; [constructor|done|done]. }
  destruct (PathFinder.traverse pf0) as [[p pf1]|[]|] eqn:Hret; [|done..].
  pose proof (sel_inv_step _ _ _ _ _ _ Hinv Hret) as Hstep.
  destruct p as [|e|i].
  - subst pf1. destruct fuel; simpl; by exists [].
  - destruct Hstep as (-> & Hinv' & Hlt).
    pose proof (main_loop_general _ _ fuel pf1 [] SpanningTree.create
                  (PathFinder.new_Edge (mkEdge (-1) (-1) (-1))) []
                  Hinv' (conj eq_refl eq_refl) Htree) as Hloop.
    destruct (main_loop _ _ _ _) as [[??]|[]|]; try done. lia.
  - destruct Hstep as (e & He & Hinv' & Hlt).
    pose proof (main_loop_general _ _ fuel pf1 _ SpanningTree.create
                  (PathFinder.elem_ptr i) []
                  Hinv' (ex_intro _ e (conj He eq_refl)) Htree) as Hloop.
    destruct (main_loop _ _ _ _) as [[??]|[]|]; try done. lia.
Qed.

(** The loop of [main] comes to an end after at most as many iterations as
    the weight index has entries, and neither [main] nor [traverse] ever
    reads outside the edge list: the run returns or a call of [traverse]
    reaches the end of the function. *)
Theorem main_stops_within_index_length (nodes : Z) (triples : list (Z * Z * Z)) (extra : nat) :
  let pf0 := PathFinder.sort_edges (PathFinder.parse_input nodes triples) in
  let r := main (length (PathFinder.all_weights pf0) + extra) nodes triples in
  (∃ pf mst, r = Returns (pf, mst)) ∨ r = Undefined FlowsOffEnd.
Proof.
  intros pf0 r. subst r pf0.
  pose proof (main_general nodes triples
                (length (PathFinder.all_weights
                           (PathFinder.sort_edges (PathFinder.parse_input nodes triples)))
                 + extra)) as H.
  cbv zeta in H.
  destruct (main _ nodes triples) as [[pf mst]|[]|]; [left; eauto|by right|done|lia].
Qed.

(** Every edge of the tree [main] builds is a stored edge other than
    (-1,-1,-1) whose pair is recorded at the end, and no pair occurs twice
    in the tree. *)
Theorem tree_edges_are_accepted_stored_edges (fuel : nat) (nodes : Z)
    (triples : list (Z * Z * Z)) :
  match main fuel nodes triples with
  | Returns (pf, mst) =>
      Forall (λ e, e ∈ PathFinder.all_edges (PathFinder.parse_input nodes triples)
                   ∧ is_sentinel e = false
                   ∧ (source e, destination e) ∈ PathFinder.traversed_edges pf)
             (SpanningTree.traversed_edges mst)
      ∧ NoDup (edge_pairs (SpanningTree.traversed_edges mst))
  | _ => True
  end.
Proof.
  pose proof (main_general nodes triples fuel) as H. cbv zeta in H.
  destruct (main fuel nodes triples) as [[pf mst]|[]|]; try done.
  destruct H as (acc & Hinv & Hall & Hsub & _). split.
  - apply Forall_forall. intros e He. rewrite Forall_forall in Hall.
    destruct (Hall e He) as [HE Hsent]. split_and!; [done..|].
    apply (sel_recorded _ _ _ _ Hinv).
    apply elem_of_reverse. eapply elem_of_sublist; [|done].
    apply list_elem_of_fmap. by exists e.
  - eapply sublist_NoDup; [|done]. rewrite reverse_Permutation.
    apply (sel_nodup _ _ _ _ Hinv).
Qed.

(** The tree never has more edges than the counter says, and it has exactly
    that many unless a stored edge is the value (-1,-1,-1), which [main]
    takes for a rejection and leaves out. *)
Theorem tree_size_against_counter (fuel : nat) (nodes : Z) (triples : list (Z * Z * Z)) :
  match main fuel nodes triples with
  | Returns (pf, mst) =>
      Z.of_nat (length (SpanningTree.traversed_edges mst))
        ≤ PathFinder.num_of_traversed_edges pf
      ∧ (Forall (λ e, is_sentinel e = false)
           (PathFinder.all_edges (PathFinder.parse_input nodes triples)) →
         Z.of_nat (length (SpanningTree.traversed_edges mst))
           = PathFinder.num_of_traversed_edges pf)
  | _ => True
  end.
Proof.
  pose proof (main_general nodes triples fuel) as H. cbv zeta in H.
  destruct (main fuel nodes triples) as [[pf mst]|[]|]; try done.
  destruct H as (acc & Hinv & _ & Hsub & Heq).
  rewrite (sel_count _ _ _ _ Hinv). split.
  - apply sublist_length in Hsub. unfold edge_pairs in Hsub.
    rewrite length_fmap, length_reverse in Hsub. lia.
  - intros HE. specialize (Heq HE). apply (f_equal length) in Heq.
    unfold edge_pairs in Heq. rewrite length_fmap, length_reverse in Heq. lia.
Qed.

Lemma tree_size_against_counter_witness :
  ∃ pf mst, main 1 2 [(-1,-1,-1)] = Returns (pf, mst)
            ∧ PathFinder.num_of_traversed_edges pf = 1
            ∧ Z.of_nat (length (SpanningTree.traversed_edges mst))
              ≤ PathFinder.num_of_traversed_edges pf
            ∧ SpanningTree.traversed_edges mst = [].
Proof.
  pose proof (tree_size_against_counter 1 2 [(-1,-1,-1)]) as H.
  destruct (main 1 2 [(-1,-1,-1)]) as [[pf mst]|[]|] eqn:Hmain; try discriminate Hmain.
  exists pf, mst. vm_compute in Hmain. injection Hmain as <- <-.
  split; [reflexivity|]. split; [reflexivity|]. split; [exact (proj1 H)|reflexivity].
Defined.

(** The accepted edges need not connect the graph: [check_cycle] misses the
    cycle 0-1-2-0, the counter reaches [num_of_nodes - 1] with node 3 left
    out, and the run reports completion. *)
Theorem accepted_edges_need_not_span :
  ¬ (∀ nodes triples fuel pf mst,
       connected_graph (PathFinder.sort_edges (PathFinder.parse_input nodes triples)) →
       main fuel nodes triples = Returns (pf, mst) →
       ∀ u v, 0 ≤ u < nodes → 0 ≤ v < nodes →
              joined (edge_pairs (SpanningTree.traversed_edges mst)) u v).
Proof.
  intros Hspan.
  assert (connected_graph
            (PathFinder.sort_edges
               (PathFinder.parse_input 4 [(0,1,1); (1,2,2); (2,0,3); (2,3,4)]))) as Hconn.
  { assert (∀ u, 0 ≤ u < 4 → joined [(0,1); (1,2); (2,0); (2,3)] 0 u) as Hzero.
    { intros u Hu.
      assert (u = 0 ∨ u = 1 ∨ u = 2 ∨ u = 3) as [ ->|[ ->|[ ->| ->]]] by lia.
      - done.
      - apply rtsc_lr. rewrite !elem_of_cons. auto.
      - apply rtsc_rl. rewrite !elem_of_cons. auto.
      - trans 2; [apply rtsc_rl|apply rtsc_lr]; rewrite !elem_of_cons; auto 6. }
    intros u v Hu Hv. trans 0; [symmetry|]; by apply Hzero. }
  specialize (Hspan 4 [(0,1,1); (1,2,2); (2,0,3); (2,3,4)] 4%nat _ _ Hconn eq_refl
                0 3 ltac:(lia) ltac:(lia)).
  apply component_label_joined in Hspan. vm_compute in Hspan. discriminate Hspan.
Qed.

(** ** Single calls *)

(** On a freshly loaded and sorted graph whose node count is not 1, the
    first call of [traverse] accepts the edge of the first entry of the
    index - an edge of least weight - and records its pair and nothing
    else. *)
Theorem first_call_accepts_a_cheapest_edge (nodes : Z) (triples : list (Z * Z * Z))
    (w i : Z) (items : list (Z * Z)) :
  let pf0 := PathFinder.sort_edges (PathFinder.parse_input nodes triples) in
  PathFinder.all_weights pf0 = (w, i) :: items → nodes ≠ 1 →
  ∃ e pf1, vector_at (PathFinder.all_edges pf0) i = Some e ∧ weight e = w
    ∧ PathFinder.traverse pf0 = Returns (PathFinder.elem_ptr i, pf1)
    ∧ PathFinder.traversed_edges pf1 = [(source e, destination e)]
    ∧ PathFinder.num_of_traversed_edges pf1 = 1
    ∧ ∀ item, item ∈ PathFinder.all_weights pf0 → w ≤ item.1.
Proof.
  intros pf0 Hitems Hnodes.
  pose proof (state_ok_start nodes triples) as Hok. fold pf0 in Hok.
  destruct (fresh_parse_input nodes triples) as (HT & _ & Hc & Hn).
  assert (PathFinder.traversed_edges pf0 = []) as HT0 by exact HT.
  assert (PathFinder.num_of_traversed_edges pf0 = 0) as Hc0 by exact Hc.
  assert (PathFinder.num_of_nodes pf0 = nodes) as Hn0 by exact Hn.
  destruct (weights_ok_lookup pf0 (w, i) (proj1 Hok)) as (e & He & Hw);
    [rewrite Hitems; by left|]. simpl in He, Hw.
  assert (selection_open pf0) as Hopen by (unfold selection_open; lia).
  assert (PathFinder.is_edge_traversed pf0 (source e) (destination e) = false) as Ht.
  { apply not_true_is_false. intros Hin%is_edge_traversed_elem_of.
    rewrite HT0 in Hin. by apply elem_of_nil in Hin. }
  assert (PathFinder.check_cycle pf0 (source e) (destination e) = false) as Hcyc.
  { apply not_true_is_false. intros (k & _ & [[H1 _]|[H1 _]])%check_cycle_true_iff;
      rewrite HT0 in H1; by apply elem_of_nil in H1. }
  destruct (augment_components_spec
              (PathFinder.mark_traversed pf0 (source e) (destination e))
              (source e) (destination e)) as (pf1 & Hret & Hsame & Hsorted1 & Hin1).
  { apply mark_traversed_sorted. by destruct Hok. }
  exists e, pf1. split_and!; [done|done| | | |].
  - rewrite (traverse_candidate pf0 [] (w, i) items Hopen Hitems); [|constructor|].
    + simpl. by rewrite He, Hcyc, Hret.
    + unfold skips. simpl. by rewrite He, Ht.
  - apply sorted_pairs_ext; [done|repeat constructor|].
    intros p. rewrite Hin1, list_elem_of_singleton.
    split; [|intros ->; left; apply elem_of_mark_traversed; by left].
    intros [Hp|(x & Hx & Hcx)].
    + apply elem_of_mark_traversed in Hp as [?|Hp]; [done|].
      rewrite HT0 in Hp. by apply elem_of_nil in Hp.
    + apply elem_of_mark_traversed in Hx as [ ->|Hx];
        [|rewrite HT0 in Hx; by apply elem_of_nil in Hx].
      apply elem_of_contrib in Hcx. simpl in Hcx.
      destruct Hcx as [(? & ? & _)|(? & ? & _)]; congruence.
  - destruct Hsame as (_ & _ & _ & _ & ->). simpl. lia.
  - intros item Hin. rewrite Hitems in Hin.
    apply elem_of_cons in Hin as [ ->|Hin]; [done|].
    pose proof (sort_pairs_sorted (PathFinder.all_weights (PathFinder.parse_input nodes triples)))
      as Hs.
    change (sort_pairs _) with (PathFinder.all_weights pf0) in Hs. rewrite Hitems in Hs.
    apply StronglySorted_cons in Hs as [Hhd _]. rewrite Forall_forall in Hhd.
    destruct (Hhd item Hin) as [[?|[? ?]]| <-]; simpl in *; lia.
Qed.

Lemma first_call_accepts_a_cheapest_edge_witness :
  ∃ e pf1,
    PathFinder.traverse
      (PathFinder.sort_edges (PathFinder.parse_input 3 [(0,1,5); (1,2,5); (0,2,1)]))
      = Returns (PathFinder.elem_ptr 2, pf1)
    ∧ weight e = 1
    ∧ PathFinder.traversed_edges pf1 = [(source e, destination e)].
Proof.
  destruct (first_call_accepts_a_cheapest_edge 3 [(0,1,5); (1,2,5); (0,2,1)] 1 2
              [(5, 0); (5, 1)] eq_refl ltac:(lia))
    as (e & pf1 & _ & Hw & Hret & HT & _).
  exists e, pf1. split; [exact Hret|]. split; [exact Hw|exact HT].
Defined.

(** A returning call of [traverse] leaves the edge list and the node count
    alone, takes entries out of the weight index without adding or
    reordering any, keeps every recorded pair, and moves the counter by one
    exactly when it returns a stored edge. *)
Theorem traverse_frame (pf : PathFinder.t) (p : PathFinder.EdgePtr) (pf' : PathFinder.t) :
  state_ok pf → PathFinder.traverse pf = Returns (p, pf') →
  PathFinder.all_edges pf' = PathFinder.all_edges pf
  ∧ PathFinder.num_of_nodes pf' = PathFinder.num_of_nodes pf
  ∧ PathFinder.all_weights pf' `sublist_of` PathFinder.all_weights pf
  ∧ (∀ q, q ∈ PathFinder.traversed_edges pf → q ∈ PathFinder.traversed_edges pf')
  ∧ PathFinder.num_of_traversed_edges pf'
    = PathFinder.num_of_traversed_edges pf
      + match p with PathFinder.elem_ptr _ => 1 | _ => 0 end
  ∧ state_ok pf'.
Proof.
  intros Hok Hret.
  destruct (traverse_preserves pf p pf' Hok Hret) as (Hok' & He & Hn & Hw & HT).
  pose proof (traverse_counter pf p pf' Hok Hret) as Hc.
  split_and!; [done..| |done].
  destruct p; [lia|lia|]. by destruct Hc as [_ ->].
Qed.

Lemma traverse_frame_witness :
  let pf := PathFinder.mk [(1, 0); (2, 1); (3, 2); (4, 3)]
              [mkEdge 0 1 1; mkEdge 0 2 2; mkEdge 1 2 3; mkEdge 2 3 4]
              [(0, 1); (0, 2)] 4 4 2 [0; 1; 2] in
  ∃ pf', PathFinder.traverse pf = Returns (PathFinder.new_Edge (mkEdge (-1) (-1) (-1)), pf')
         ∧ PathFinder.num_of_traversed_edges pf' = 2 + 0
         ∧ PathFinder.all_weights pf' `sublist_of` PathFinder.all_weights pf.
Proof.
  intros pf. eexists. split; [vm_compute; reflexivity|].
  assert (state_ok pf) as Hok.
  { split; [split|].
    - simpl. repeat constructor; rewrite ?elem_of_cons, ?elem_of_nil; intuition discriminate.
    - repeat constructor; by eexists.
    - simpl. repeat constructor; unfold pair_lt; simpl; lia. }
  destruct (traverse_frame pf _ _ Hok eq_refl) as (_ & _ & Hsub & _ & Hc & _).
  split; [exact Hc|exact Hsub].
Defined.

(** The witness of the bound on the loop of [augment_components]: with
    (0,1), (1,2), (2,3) recorded, accepting (1,2) inserts two pairs above
    the cursor and the loop still ends within six iterations. *)
Lemma augment_loop_fuel_witness :
  ∃ pf', PathFinder.augment_components
           (PathFinder.mk [] [] [(0,1); (1,2); (2,3)] 0 4 2 [0; 1; 2; 3]) 1 2 = Returns pf'
         ∧ length (PathFinder.traversed_edges pf') = 5%nat.
Proof.
  destruct (augment_loop_fuel
              (PathFinder.mk [] [] [(0,1); (1,2); (2,3)] 0 4 2 [0; 1; 2; 3]) 1 2 0)
    as (pf' & Hret & Hloop).
  { simpl. repeat constructor; unfold pair_lt; simpl; lia. }
  exists pf'. split; [exact Hret|].
  vm_compute in Hloop. injection Hloop as <-. reflexivity.
Defined.

(** ** Runs without edges *)

Lemma index_nonempty nodes triples :
  triples ≠ [] →
  PathFinder.all_weights (PathFinder.sort_edges (PathFinder.parse_input nodes triples)) ≠ [].
Proof.
  intros Hne Hnil.
  pose proof (sort_pairs_perm (PathFinder.all_weights (PathFinder.parse_input nodes triples)))
    as Hperm.
  change (sort_pairs _)
    with (PathFinder.all_weights (PathFinder.sort_edges (PathFinder.parse_input nodes triples)))
    in Hperm.
  rewrite Hnil in Hperm. symmetry in Hperm. apply Permutation_nil_r in Hperm.
  destruct (loaded_parse_input nodes triples) as [_ Hw]. rewrite Hw in Hperm.
  destruct triples as [|[[s d] w] triples]; [done|].
  assert (mkEdge s d w ∈ PathFinder.all_edges (PathFinder.parse_input nodes ((s, d, w) :: triples))
          ∨ mkEdge d s w ∈ PathFinder.all_edges
                             (PathFinder.parse_input nodes ((s, d, w) :: triples))) as Hin.
  { clear. unfold PathFinder.parse_input.
    induction triples as [|[[a b] c] triples IH] using rev_ind.
    - left. simpl. rewrite list_elem_of_singleton. done.
    - rewrite app_comm_cons, parse_fold_snoc, all_edges_insert_new_edge.
      destruct (decide _); [done|]. rewrite !elem_of_app. tauto. }
  destruct (PathFinder.all_edges _); [|done].
  destruct Hin as [Hin|Hin]; by apply elem_of_nil in Hin.
Qed.

(** The first call of [traverse] reaches the end of the function exactly
    when the input has no edge; with an edge it reports completion at once
    for a node count of 1. *)
Theorem first_call_fails_only_without_edges (nodes : Z) (triples : list (Z * Z * Z)) :
  let pf0 := PathFinder.sort_edges (PathFinder.parse_input nodes triples) in
  (PathFinder.traverse pf0 = Undefined FlowsOffEnd ↔ triples = [])
  ∧ (triples ≠ [] → nodes = 1 → PathFinder.traverse pf0 = Returns (PathFinder.nullptr, pf0))
  ∧ (∀ fuel, main fuel nodes [] = Undefined FlowsOffEnd).
Proof.
  intros pf0.
  pose proof (state_ok_start nodes triples) as Hok. fold pf0 in Hok.
  destruct (fresh_parse_input nodes triples) as (HT & _ & Hc & Hn).
  assert (PathFinder.traversed_edges pf0 = []) as HT0 by exact HT.
  assert (PathFinder.num_of_traversed_edges pf0 = 0) as Hc0 by exact Hc.
  assert (PathFinder.num_of_nodes pf0 = nodes) as Hn0 by exact Hn.
  split_and!.
  - split; [|by intros ->].
    intros Hret. destruct (decide (triples = [])) as [|Hne]; [done|]. exfalso.
    pose proof (index_nonempty nodes triples Hne) as Hidx. fold pf0 in Hidx.
    pose proof (traverse_case_of pf0 Hok) as Hcase. rewrite Hret in Hcase.
    inversion Hcase as [Hnil|Hopen Hall| | |]; [done|].
    destruct (PathFinder.all_weights pf0) as [|item rest] eqn:Hitems; [done|].
    apply Forall_cons in Hall as [Hskip _]. unfold skips in Hskip.
    destruct (vector_at _ _) as [e|]; [|done].
    apply is_edge_traversed_elem_of in Hskip. rewrite HT0 in Hskip.
    by apply elem_of_nil in Hskip.
  - intros Hne ->. apply traverse_when_closed; [done|by apply index_nonempty|lia].
  - reflexivity.
Qed.

Lemma first_call_fails_only_without_edges_witness :
  PathFinder.traverse (PathFinder.sort_edges (PathFinder.parse_input 1 [(0,0,3)]))
  = Returns (PathFinder.nullptr, PathFinder.sort_edges (PathFinder.parse_input 1 [(0,0,3)])).
Proof.
  destruct (first_call_fails_only_without_edges 1 [(0,0,3)]) as (_ & Hone & _).
  apply Hone; [discriminate|reflexivity].
Defined.
